(** * Task-plan parser and validator: a shallow embedding of
      [skills/task-decomposition/scripts/validate-plan.py]

    The development follows the script top to bottom:
    - [PyStr]: the [str] methods and the one [re.findall] pattern the parser
      applies to field values (lines 52-65);
    - [Task], [parse_task], [parse_task_plan]: the task dictionary built at
      lines 52-77 from the regular-expression matches of one task block (the
      matches themselves, [BlockMatch], are the input);
    - [validate_tasks]: the rule loop of lines 82-178, written as the
      statement sequence it is, appending to two accumulators;
    - [dfs], [detect_cycles]: the depth-first search of lines 181-207, with
      its three shared mutable objects ([visited], [rec_stack], [path]) and
      the result list [cycles] threaded as one state record.

    Conventions.  A Python [int] is a [Z]; [len(...)] is a [nat].  A Python
    [str] is a [string] whose characters are the code points below 256; the
    character classes below are Python's, restricted to that range.  The
    interpreter's recursion limit and memory are not modelled: recursion is
    bounded by an explicit fuel argument and shown never to run out. *)

From Stdlib Require Import ZArith List Ascii String Lia.
From stdpp Require Import base numbers list gmap sets strings pretty.

#[local] Set Warnings "-clear-no-such-hyp".

(** ** Python string primitives *)

Module PyStr.

(** [str.isspace] on one character, which is also what [\s] matches and what
    [str.strip()] removes: TAB..CR, FS..US, SPACE, NEL and NBSP. *)
Definition isspace (c : ascii) : bool :=
  let n := N_of_ascii c in
  ((9 <=? n) && (n <=? 13) || (28 <=? n) && (n <=? 32)
   || (n =? 133) || (n =? 160))%N.

(** What [\d] matches below code point 256: the ten decimal digits. *)
Definition isdigit (c : ascii) : bool :=
  let n := N_of_ascii c in ((48 <=? n) && (n <=? 57))%N.

Definition is_backtick (c : ascii) : bool := N.eqb (N_of_ascii c) 96.

(** [str.lower] on one character: A-Z and the Latin-1 capitals
    (all of 0xC0..0xDE but the multiplication sign) move up by 32. *)
Definition lower_char (c : ascii) : ascii :=
  let n := N_of_ascii c in
  if ((65 <=? n) && (n <=? 90)
      || (192 <=? n) && (n <=? 222) && negb (n =? 215))%N
  then ascii_of_N (n + 32) else c.

Fixpoint lower (s : string) : string :=
  match s with
  | EmptyString => EmptyString
  | String c s' => String (lower_char c) (lower s')
  end.

(** [s.lstrip(chars)], [s.rstrip(chars)] and [s.strip(chars)], the
    character set given as a predicate. *)
Fixpoint lstrip_with (p : ascii → bool) (s : string) : string :=
  match s with
  | EmptyString => EmptyString
  | String c s' => if p c then lstrip_with p s' else s
  end.

Fixpoint rstrip_with (p : ascii → bool) (s : string) : string :=
  match s with
  | EmptyString => EmptyString
  | String c s' =>
      match rstrip_with p s' with
      | EmptyString => if p c then EmptyString else String c EmptyString
      | r => String c r
      end
  end.

Definition strip_with (p : ascii → bool) (s : string) : string :=
  rstrip_with p (lstrip_with p s).

(** [s.strip()] *)
Definition strip : string → string := strip_with isspace.

(** [s.split(sep)] for a one-character separator: never an empty list. *)
Fixpoint split (sep : ascii) (s : string) : list string :=
  match s with
  | EmptyString => [EmptyString]
  | String c s' =>
      if Ascii.eqb c sep then EmptyString :: split sep s'
      else match split sep s' with
           | h :: t => String c h :: t
           | [] => [String c EmptyString]
           end
  end.

(** [sep.join(l)] *)
Fixpoint join (sep : string) (l : list string) : string :=
  match l with
  | [] => ""
  | [x] => x
  | x :: l' => x +:+ sep +:+ join sep l'
  end.

(** [int(x)] for a string of decimal digits, most significant first. *)
Definition digit_val (c : ascii) : Z := Z.of_N (N_of_ascii c) - 48.

Fixpoint int_acc (acc : Z) (s : string) : Z :=
  match s with
  | EmptyString => acc
  | String c s' => int_acc (10 * acc + digit_val c) s'
  end.

Definition int (s : string) : Z := int_acc 0 s.

(** The longest prefix whose characters satisfy [p], and what follows it:
    how a greedy [\s+] or [\d+] consumes its input. *)
Fixpoint span (p : ascii → bool) (s : string) : string * string :=
  match s with
  | EmptyString => (EmptyString, EmptyString)
  | String c s' =>
      if p c then let '(a, b) := span p s' in (String c a, b)
      else (EmptyString, s)
  end.

(** Matching a literal text at the head of [s]: what follows it, if it is
    there. *)
Fixpoint strip_prefix (pre s : string) : option string :=
  match pre with
  | EmptyString => Some s
  | String c pre' =>
      match s with
      | EmptyString => None
      | String d s' => if Ascii.eqb c d then strip_prefix pre' s' else None
      end
  end.

(** One attempt of the pattern [Task\s+(\d+)] at the head of [s]: the text of
    group 1 and the unconsumed rest.  The two greedy runs never give
    characters back: a shorter run of white space is followed by white
    space, which is no digit. *)
Definition match_task_ref (s : string) : option (string * string) :=
  match strip_prefix "Task" s with
  | Some r =>
      match span isspace r with
      | (EmptyString, _) => None
      | (_, r1) =>
          match span isdigit r1 with
          | (EmptyString, _) => None
          | (ds, r2) => Some (ds, r2)
          end
      end
  | None => None
  end.

(** [re.findall(r"Task\s+(\d+)", s)]: try the pattern at every position from
    the left; after a match, resume at the end of the matched text.  [skip]
    counts the characters still to step over. *)
Fixpoint findall_go (skip : nat) (s : string) : list string :=
  match s with
  | EmptyString => []
  | String _ s' =>
      match skip with
      | S k => findall_go k s'
      | O =>
          match match_task_ref s with
          | Some (ds, rest) =>
              ds :: findall_go (String.length s' - String.length rest) s'
          | None => findall_go 0 s'
          end
      end
  end.

Definition findall_task_refs (s : string) : list string := findall_go 0 s.

End PyStr.

(** ** Task records (lines 67-77) *)

Record Task := mkTask {
  num : Z;
  title : string;
  files : list string;
  file_count : nat;
  preconditions : list Z;
  done_when : string;
  complexity : string;
  parallel : string;
  has_steps : bool
}.

(** What the regular expressions of lines 33-50 hand to the rest of the loop
    body for one task block: the header groups and, per labelled field, group 1
    of its match or [None] when [re.search] found nothing. *)
Record BlockMatch := mkBlock {
  header_num : Z;
  header_title : string;
  files_match : option string;
  preconditions_match : option string;
  done_match : option string;
  complexity_match : option string;
  parallel_match : option string;
  steps_match : bool
}.

(** Lines 52-56. *)
Definition parse_files (files_match : option string) : list string :=
  let files_str :=
    match files_match with Some g => PyStr.strip g | None => "" end in
  if decide (files_str = "") then []
  else map (λ f, PyStr.strip_with PyStr.is_backtick (PyStr.strip f))
           (PyStr.split "," files_str).

(** Lines 58-65. *)
Definition parse_preconditions (preconditions_match : option string) : list Z :=
  let preconditions_str :=
    match preconditions_match with Some g => PyStr.strip g | None => "none" end in
  if decide (PyStr.lower preconditions_str ≠ "none")
  then map PyStr.int (PyStr.findall_task_refs preconditions_str)
  else [].

(** Lines 67-77. *)
Definition parse_task (m : BlockMatch) : Task :=
  let file_list := parse_files (files_match m) in
  {| num := header_num m;
     title := PyStr.strip (header_title m);
     files := file_list;
     file_count := length file_list;
     preconditions := parse_preconditions (preconditions_match m);
     done_when := match done_match m with Some g => PyStr.strip g | None => "" end;
     complexity :=
       match complexity_match m with Some g => PyStr.lower g | None => "" end;
     parallel :=
       match parallel_match m with Some g => PyStr.strip g | None => "" end;
     has_steps := steps_match m |}.

(** Lines 32-79: the loop over the matches of [task_pattern.finditer(content)],
    here over what each match and its field searches produced. *)
Definition parse_task_plan (ms : list BlockMatch) : list Task :=
  map parse_task ms.


(** ** Results of running Python code

    A statement sequence either completes with a value, raises, or (in the
    model only) exhausts the recursion fuel it was given. *)

Inductive PyExn := ValueError | IndexError.

Inductive Res (A : Type) : Type :=
  | Ok (a : A)
  | Raise (e : PyExn)
  | OutOfFuel.
Arguments Ok {A} a.
Arguments Raise {A} e.
Arguments OutOfFuel {A}.

Global Instance Res_ret : MRet Res := λ A a, Ok a.
Global Instance Res_bind : MBind Res := λ A B f r,
  match r with
  | Ok a => f a
  | Raise e => Raise e
  | OutOfFuel => OutOfFuel
  end.

(** ** Cycle detection (lines 181-207) *)

(** A [dict] from task number to dependency list, kept as an association
    list in insertion order: assigning to a key that is present replaces its
    value where it stands, a new key goes to the end.  Iterating the dict
    reads the keys front to back. *)
Definition Graph := list (Z * list Z).

Fixpoint dict_set (g : Graph) (k : Z) (v : list Z) : Graph :=
  match g with
  | [] => [(k, v)]
  | (k', v') :: g' =>
      if decide (k' = k) then (k, v) :: g' else (k', v') :: dict_set g' k v
  end.

(** [graph.get(node, [])] *)
Fixpoint dict_get (g : Graph) (k : Z) : list Z :=
  match g with
  | [] => []
  | (k', v) :: g' => if decide (k' = k) then v else dict_get g' k
  end.

Definition dict_keys (g : Graph) : list Z := map fst g.

(** Line 183: [{t["num"]: t["preconditions"] for t in tasks}] *)
Definition build_graph (tasks : list Task) : Graph :=
  fold_left (λ g t, dict_set g (num t) (preconditions t)) tasks [].

(** The objects the closure [dfs] shares with [detect_cycles] and with its own
    recursive activations.  [path] is one list object per outer traversal,
    passed by reference down the recursion.  [calls] is not in the source: it
    counts the activations of [dfs], for the resource bound. *)
Record DfsState := mkDfs {
  visited : gset Z;
  rec_stack : gset Z;
  path : list Z;
  cycles : list (list Z);
  calls : nat
}.

(** [path.index(x)] *)
Definition py_index (x : Z) (l : list Z) : Res nat :=
  match list_find (λ y, y = x) l with
  | Some (i, _) => Ok i
  | None => Raise ValueError
  end.

(** Lines 196-198, taken when [neighbor] is visited and on the stack. *)
Definition record_cycle (neighbor : Z) (st : DfsState) : Res DfsState :=
  cycle_start ← py_index neighbor (path st);
  Ok (mkDfs (visited st) (rec_stack st) (path st)
            (cycles st ++ [drop cycle_start (path st) ++ [neighbor]])
            (calls st)).

(** Lines 193-198: the [for] loop of one activation, [rec] standing for the
    recursive call [dfs(neighbor, path)]. *)
Fixpoint visit_neighbors (rec : Z → DfsState → Res DfsState)
    (neighbors : list Z) (st : DfsState) : Res DfsState :=
  match neighbors with
  | [] => Ok st
  | neighbor :: rest =>
      st' ← (if decide (neighbor ∉ visited st) then rec neighbor st
             else if decide (neighbor ∈ rec_stack st) then record_cycle neighbor st
             else Ok st);
      visit_neighbors rec rest st'
  end.

(** Lines 189-191. *)
Definition enter (node : Z) (st : DfsState) : DfsState :=
  mkDfs ({[node]} ∪ visited st) ({[node]} ∪ rec_stack st) (path st ++ [node])
        (cycles st) (S (calls st)).

(** Lines 200-201: [path.pop()] then [rec_stack.discard(node)]. *)
Definition leave (node : Z) (st : DfsState) : Res DfsState :=
  match path st with
  | [] => Raise IndexError
  | _ :: _ =>
      Ok (mkDfs (visited st) (rec_stack st ∖ {[node]}) (removelast (path st))
                (cycles st) (calls st))
  end.

(** Lines 188-201. *)
Fixpoint dfs (fuel : nat) (graph : Graph) (node : Z) (st : DfsState)
    : Res DfsState :=
  match fuel with
  | O => OutOfFuel
  | S fuel' =>
      st' ← visit_neighbors (dfs fuel' graph) (dict_get graph node) (enter node st);
      leave node st'
  end.

(** Lines 203-205: each root gets a fresh, empty [path]. *)
Fixpoint visit_roots (fuel : nat) (graph : Graph) (roots : list Z)
    (st : DfsState) : Res DfsState :=
  match roots with
  | [] => Ok st
  | task_num :: rest =>
      st' ← (if decide (task_num ∉ visited st)
             then dfs fuel graph task_num
                      (mkDfs (visited st) (rec_stack st) [] (cycles st) (calls st))
             else Ok st);
      visit_roots fuel graph rest st'
  end.

Definition dfs_init : DfsState := mkDfs ∅ ∅ [] [] 0.

Definition run_dfs (fuel : nat) (tasks : list Task) : Res DfsState :=
  let graph := build_graph tasks in
  visit_roots fuel graph (dict_keys graph) dfs_init.

(** Every number the search can reach: the keys of the graph and the entries
    of the dependency lists stored under them. *)
Definition graph_nodes (g : Graph) : list Z :=
  dict_keys g ++ (dict_keys g ≫= dict_get g).

Definition universe (g : Graph) : gset Z := list_to_set (graph_nodes g).

(** The recursion depth granted to [detect_cycles]: one more than the length
    of [graph_nodes].  Lemma [run_dfs_fuel_irrelevant] shows any such depth
    gives the same answer. *)
Definition enough_fuel (tasks : list Task) : nat :=
  S (length (graph_nodes (build_graph tasks))).

Definition detect_cycles (tasks : list Task) : Res (list (list Z)) :=
  st ← run_dfs (enough_fuel tasks) tasks;
  Ok (cycles st).

(** ** The validator (lines 82-178) *)

Record Finding := mkFinding {
  task : Z;
  rule : string;
  severity : string;
  message : string
}.

Record ValidationResult := mkResult {
  total_tasks : nat;
  errors : nat;
  warnings : nat;
  issues : list Finding;
  warnings_list : list Finding;
  passed : bool
}.

(** Line 27.  Membership in the set does not depend on how it is laid out;
    what [', '.join(VALID_COMPLEXITIES)] reads is its iteration order, which
    CPython derives from the per-process string hash seed.  The validator
    therefore takes that order as an argument, [order]. *)
Definition VALID_COMPLEXITIES : gset string :=
  {[ "trivial"; "small"; "medium"; "large" ]}.

Definition iteration_order (s : gset string) (order : list string) : Prop :=
  NoDup order ∧ ∀ x, x ∈ order ↔ x ∈ s.

Definition task_prefix (n : Z) : string := "Task " +:+ pretty n.

Definition atomic_scope_issue (t : Task) : Finding :=
  mkFinding (num t) "atomic_scope" "error"
    (task_prefix (num t) +:+ ": Touches " +:+ pretty (file_count t)
       +:+ " files (max 3). Split this task.").

Definition verifiable_issue (t : Task) : Finding :=
  mkFinding (num t) "verifiable" "error"
    (task_prefix (num t) +:+ ": Missing 'Done when' verification command.").

Definition placeholder_warning (t : Task) : Finding :=
  mkFinding (num t) "verifiable" "warning"
    (task_prefix (num t) +:+ ": 'Done when' is placeholder (" +:+ done_when t
       +:+ "). Needs a concrete command.").

Definition steps_warning (t : Task) : Finding :=
  mkFinding (num t) "steps" "warning"
    (task_prefix (num t) +:+ ": No steps found. Add concrete action steps.").

Definition preconditions_issue (t : Task) (dep : Z) : Finding :=
  mkFinding (num t) "preconditions" "error"
    (task_prefix (num t) +:+ ": References Task " +:+ pretty dep
       +:+ " which does not exist.").

Definition complexity_issue (t : Task) : Finding :=
  mkFinding (num t) "complexity" "error"
    (task_prefix (num t) +:+ ": Missing complexity sizing.").

Definition complexity_warning (order : list string) (t : Task) : Finding :=
  mkFinding (num t) "complexity" "warning"
    (task_prefix (num t) +:+ ": Complexity '" +:+ complexity t
       +:+ "' not standard. Use: " +:+ PyStr.join ", " order).

Definition files_warning (t : Task) : Finding :=
  mkFinding (num t) "files" "warning"
    (task_prefix (num t) +:+ ": No files listed.").

(** Lines 127-134: the inner loop of rule 4. *)
Definition check_preconditions (task_nums : gset Z) (t : Task)
    (issues : list Finding) : list Finding :=
  fold_left
    (λ issues dep,
       if decide (dep ∉ task_nums) then issues ++ [preconditions_issue t dep]
       else issues)
    (preconditions t) issues.

(** Lines 89-159: the body of the loop over tasks, from the two accumulators
    before the task to the two after it. *)
Definition check_task (order : list string) (task_nums : gset Z)
    (acc : list Finding * list Finding) (t : Task)
    : list Finding * list Finding :=
  let '(issues, warnings) := acc in
  (* Rule 1: Atomic scope (max 3 files) *)
  let issues :=
    if decide (3 < file_count t) then issues ++ [atomic_scope_issue t]
    else issues in
  (* Rule 2: Independently verifiable *)
  let '(issues, warnings) :=
    if decide (done_when t = "") then (issues ++ [verifiable_issue t], warnings)
    else if decide (PyStr.lower (done_when t) ∈ ["tbd"; "todo"; "n/a"])
         then (issues, warnings ++ [placeholder_warning t])
         else (issues, warnings) in
  (* Rule 3: Has steps *)
  let warnings :=
    if has_steps t then warnings else warnings ++ [steps_warning t] in
  (* Rule 4: Preconditions reference valid tasks *)
  let issues := check_preconditions task_nums t issues in
  (* Rule 5: Complexity sizing *)
  let '(issues, warnings) :=
    if decide (complexity t = "") then (issues ++ [complexity_issue t], warnings)
    else if decide (complexity t ∉ VALID_COMPLEXITIES)
         then (issues, warnings ++ [complexity_warning order t])
         else (issues, warnings) in
  (* Rule 6: Files listed *)
  let warnings :=
    if decide (files t = [] ∨ files t = [""])
    then warnings ++ [files_warning t] else warnings in
  (issues, warnings).

(** Lines 164-169: the finding for one cycle; [cycle[0]] raises on an empty
    list. *)
Definition cycle_issue (cycle : list Z) : Res Finding :=
  match cycle with
  | [] => Raise IndexError
  | first :: _ =>
      Ok (mkFinding first "acyclic" "error"
            ("Circular dependency detected: "
               +:+ PyStr.join " -> " (map task_prefix cycle)))
  end.

(** Lines 163-169. *)
Fixpoint report_cycles (cycles : list (list Z)) (issues : list Finding)
    : Res (list Finding) :=
  match cycles with
  | [] => Ok issues
  | cycle :: rest =>
      f ← cycle_issue cycle;
      report_cycles rest (issues ++ [f])
  end.

Definition validate_tasks (order : list string) (tasks : list Task)
    : Res ValidationResult :=
  let task_nums : gset Z := list_to_set (map num tasks) in
  let '(issues, warnings) :=
    fold_left (check_task order task_nums) tasks ([], []) in
  cycles ← detect_cycles tasks;
  issues ← report_cycles cycles issues;
  Ok (mkResult (length tasks) (length issues) (length warnings)
               issues warnings (bool_decide (length issues = 0))).


(** ** Predicates used in the statements *)

(** [rec_stack] holds exactly the nodes of [path], all of them visited. *)
Definition stack_inv (st : DfsState) : Prop :=
  rec_stack st = list_to_set (path st) ∧ rec_stack st ⊆ visited st.

(** Every visited node that has left the stack has all its neighbours
    visited. *)
Definition explored (g : Graph) (st : DfsState) : Prop :=
  ∀ v d, v ∈ visited st → v ∉ rec_stack st → d ∈ dict_get g v → d ∈ visited st.

(** A witness of acyclicity: a rank that strictly drops along every edge. *)
Definition descends (g : Graph) (rank : Z → Z) : Prop :=
  ∀ v d, d ∈ dict_get g v → (rank d < rank v)%Z.

Definition below (rank : Z → Z) (d : Z) (l : list Z) : Prop :=
  ∀ x, x ∈ l → (rank d < rank x)%Z.

(** The shape of a recorded cycle: it starts and ends with the same node. *)
Definition closed_walk (c : list Z) : Prop := ∃ x mid, c = x :: mid ++ [x].

(** What one activation of [dfs], or one run of its loop, may change. *)
Record dfs_frame (g : Graph) (st st' : DfsState) : Prop := mkFrame {
  frame_path : path st' = path st;
  frame_stack : rec_stack st' = rec_stack st;
  frame_grow : visited st ⊆ visited st';
  frame_within : visited st' ⊆ visited st ∪ universe g;
  frame_calls : calls st' + size (visited st) = calls st + size (visited st');
  frame_inv : stack_inv st';
  frame_explored : explored g st → explored g st';
  frame_cycles : ∃ new, cycles st' = cycles st ++ new ∧ Forall closed_walk new
}.

(** The specification one activation of [dfs] meets on a node not yet
    visited, when its fuel covers the nodes still unvisited. *)
Definition dfs_meets (g : Graph) (fuel : nat) : Prop :=
  ∀ node st,
    stack_inv st → node ∉ visited st → node ∈ universe g →
    size (universe g ∖ visited st) ≤ fuel →
    ∃ st', dfs fuel g node st = Ok st' ∧ dfs_frame g st st' ∧
           node ∈ visited st' ∧
           (∀ rank, descends g rank → below rank node (path st) →
                    cycles st' = cycles st).

(** ** The rule table

    The findings of section 4.2, one function per row, each a function of the
    task alone (and of the set of task numbers for the precondition rule).
    Lemma [check_task_eq] shows the loop body computes exactly these. *)

Definition cycle_finding (cycle : list Z) : Finding :=
  mkFinding (hd 0%Z cycle) "acyclic" "error"
    ("Circular dependency detected: "
       +:+ PyStr.join " -> " (map task_prefix cycle)).

Definition rule_atomic_scope (t : Task) : list Finding :=
  if decide (3 < file_count t) then [atomic_scope_issue t] else [].

Definition rule_verifiable (t : Task) : list Finding :=
  if decide (done_when t = "") then [verifiable_issue t] else [].

Definition rule_placeholder (t : Task) : list Finding :=
  if decide (done_when t ≠ ""
             ∧ PyStr.lower (done_when t) ∈ ["tbd"; "todo"; "n/a"])
  then [placeholder_warning t] else [].

Definition rule_steps (t : Task) : list Finding :=
  if has_steps t then [] else [steps_warning t].

Definition dangling (task_nums : gset Z) (t : Task) : list Z :=
  filter (λ dep, dep ∉ task_nums) (preconditions t).

Definition rule_preconditions (task_nums : gset Z) (t : Task) : list Finding :=
  preconditions_issue t <$> dangling task_nums t.

Definition rule_complexity (t : Task) : list Finding :=
  if decide (complexity t = "") then [complexity_issue t] else [].

Definition rule_nonstandard (order : list string) (t : Task) : list Finding :=
  if decide (complexity t ≠ "" ∧ complexity t ∉ VALID_COMPLEXITIES)
  then [complexity_warning order t] else [].

Definition rule_files (t : Task) : list Finding :=
  if decide (files t = [] ∨ files t = [""]) then [files_warning t] else [].

Definition task_issues (task_nums : gset Z) (t : Task) : list Finding :=
  rule_atomic_scope t ++ rule_verifiable t ++ rule_preconditions task_nums t
    ++ rule_complexity t.

Definition task_warnings (order : list string) (t : Task) : list Finding :=
  rule_placeholder t ++ rule_steps t ++ rule_nonstandard order t
    ++ rule_files t.

Definition task_numbers (tasks : list Task) : gset Z :=
  list_to_set (map num tasks).

(** Every number a plan mentions: as a task's own number or as one of its
    precondition references. *)
Definition plan_numbers (tasks : list Task) : gset Z :=
  list_to_set (map num tasks ++ (tasks ≫= preconditions)).

(** Selecting the findings of one rule. *)
Definition has_rule (r : string) (f : Finding) : Prop := rule f = r.

Global Instance has_rule_dec r f : Decision (has_rule r f) :=
  decide (rule f = r).

(** ** Plans named in the statements *)

(** A chain of tasks: the first depends on nothing, every later one on the
    task before it and on nothing else; all numbers differ. *)
Fixpoint chain_from (prev : Z) (l : list Task) : Prop :=
  match l with
  | [] => True
  | t :: l' => preconditions t = [prev] ∧ chain_from (num t) l'
  end.

Definition linear_chain (l : list Task) : Prop :=
  NoDup (map num l) ∧
  match l with
  | [] => True
  | t :: l' => preconditions t = [] ∧ chain_from (num t) l'
  end.

(** How far down the chain a number stands. *)
Fixpoint position (n : Z) (ns : list Z) : Z :=
  match ns with
  | [] => 0
  | m :: ns' => if decide (m = n) then 0 else 1 + position n ns'
  end.

(** A task that is complete but for its number and preconditions. *)
Definition plain_task (n : Z) (deps : list Z) : Task :=
  mkTask n "t" ["a.py"] 1 deps "pytest" "small" "" true.

Definition std_order : list string := ["trivial"; "small"; "medium"; "large"].

(** Selecting the findings of one rule attributed to one task number. *)
Definition finding_of (r : string) (n : Z) (f : Finding) : Prop :=
  rule f = r ∧ task f = n.

Global Instance finding_of_dec r n f : Decision (finding_of r n f) :=
  and_dec (decide (rule f = r)) (decide (task f = n)).

Definition other_order : list string := ["large"; "medium"; "small"; "trivial"].

(** ** Predicates on strings used in the statements *)

Fixpoint all_chars (p : ascii → bool) (s : string) : bool :=
  match s with
  | EmptyString => true
  | String c s' => p c && all_chars p s'
  end.

Fixpoint count_char (c : ascii) (s : string) : nat :=
  match s with
  | EmptyString => 0
  | String d s' => (if Ascii.eqb d c then 1 else 0) + count_char c s'
  end.

Definition first_char (s : string) : option ascii :=
  match s with
  | EmptyString => None
  | String c _ => Some c
  end.

Fixpoint last_char (s : string) : option ascii :=
  match s with
  | EmptyString => None
  | String c EmptyString => Some c
  | String _ s' => last_char s'
  end.

(** Neither end of [s] is a character of the class [p]. *)
Definition trimmed (p : ascii → bool) (s : string) : Prop :=
  (∀ c, first_char s = Some c → p c = false) ∧
  (∀ c, last_char s = Some c → p c = false).

(** [inner] is [outer] without a run of [p]-characters at each end. *)
Definition stripped_of (p : ascii → bool) (outer inner : string) : Prop :=
  ∃ a b, outer = a +:+ inner +:+ b
         ∧ all_chars p a = true ∧ all_chars p b = true ∧ trimmed p inner.

(** White space, backtick and the two quote characters. *)
Definition is_decoration (c : ascii) : bool :=
  let n := N_of_ascii c in
  (PyStr.isspace c || (n =? 96) || (n =? 34) || (n =? 39))%N.

(** ** Occurrences of the task-reference pattern

    [ds] is the digit text of an occurrence of the pattern in [s] that starts
    after [pre]: the literal "Task", a non-empty run of white space, then the
    longest non-empty run of decimal digits. *)
Definition task_ref_at (s pre ds : string) : Prop :=
  ∃ ws rest,
    s = pre +:+ "Task" +:+ ws +:+ ds +:+ rest ∧
    ws ≠ "" ∧ all_chars PyStr.isspace ws = true ∧
    ds ≠ "" ∧ all_chars PyStr.isdigit ds = true ∧
    (∀ c, first_char rest = Some c → PyStr.isdigit c = false).

(** The digit texts of the occurrences at every position of [s], left to
    right. *)
Fixpoint every_match (s : string) : list string :=
  match s with
  | EmptyString => []
  | String _ s' =>
      match PyStr.match_task_ref s with
      | Some (ds, _) => ds :: every_match s'
      | None => every_match s'
      end
  end.

(** ** Walks and finishing ranks *)

(** Every element of [l] has its successor in [l] among its dependencies. *)
Definition walk (g : Graph) (l : list Z) : Prop :=
  ∀ i x y, l !! i = Some x → l !! S i = Some y → y ∈ dict_get g x.

(** The nodes whose activation has returned. *)
Definition finished (st : DfsState) : gset Z := visited st ∖ rec_stack st.

(** [rk] numbers the finished nodes so that every dependency of a finished
    node is finished and has a smaller number. *)
Definition ranked (g : Graph) (rk : Z → Z) (st : DfsState) : Prop :=
  ∀ u, u ∈ finished st →
       (rk u ≤ Z.of_nat (size (finished st)))%Z ∧
       ∀ d, d ∈ dict_get g u → d ∈ finished st ∧ (rk d < rk u)%Z.

(** What one activation of [dfs] adds to [dfs_meets]: the cycles it records
    are walks of the graph, and if it records none the ranking extends. *)
Definition dfs_traces (g : Graph) (fuel : nat) : Prop :=
  ∀ node st st',
    stack_inv st → node ∉ visited st → node ∈ universe g →
    size (universe g ∖ visited st) ≤ fuel →
    dfs fuel g node st = Ok st' →
    (walk g (path st ++ [node]) →
     ∀ new, cycles st' = cycles st ++ new → Forall (walk g) new) ∧
    (∀ rk, ranked g rk st → cycles st' = cycles st → ∃ rk', ranked g rk' st').
(** The graph has a closed walk along its dependency edges. *)
Definition has_cycle (g : Graph) : Prop := ∃ c, closed_walk c ∧ walk g c.

(** The hard rules a task can break on its own. *)
Definition task_sound (task_nums : gset Z) (t : Task) : Prop :=
  file_count t ≤ 3 ∧ done_when t ≠ "" ∧ complexity t ≠ "" ∧
  ∀ dep, dep ∈ preconditions t → dep ∈ task_nums.

(** * The plan generator [skills/task-decomposition/scripts/decompose.py] *)

Module Decompose.

(** The line feed, written [\n] in the source. *)
Definition nl : string := String "010" "".

(** The dictionary [objective_data]: a key that is absent is [None], which is
    where [.get] falls back to its default.  The values are taken at the type
    the documented input format gives them. *)
Record ObjectiveData := mkObjective {
  feature_name : option string;
  strategy : option string;
  layers : option (list string);
  objective : option string;
  constraints : option (list string)
}.

(** The keyword arguments of one call of [TASK_TEMPLATE.format]. *)
Record TaskFields := mkFields {
  num : Z;
  title : string;
  files : string;
  preconditions : string;
  steps : string;
  done_when : string;
  complexity : string;
  parallel : string
}.

(** Lines 53-61: [TASK_TEMPLATE.format(...)]. *)
Definition TASK_TEMPLATE_format (a : TaskFields) : string :=
  "### Task " +:+ pretty (num a) +:+ ": " +:+ title a +:+ nl
  +:+ "- **Files:** " +:+ files a +:+ nl
  +:+ "- **Preconditions:** " +:+ preconditions a +:+ nl
  +:+ "- **Steps:**" +:+ nl
  +:+ steps a +:+ nl
  +:+ "- **Done when:** " +:+ done_when a +:+ nl
  +:+ "- **Complexity:** " +:+ complexity a +:+ nl
  +:+ "- **Parallel:** " +:+ parallel a +:+ nl.

(** Lines 22-34: [TASK_PLAN_TEMPLATE.format(...)]. *)
Definition TASK_PLAN_TEMPLATE_format
    (feature_name date strategy : string) (total_tasks : Z) (tasks : string)
    : string :=
  "# Task Plan: " +:+ feature_name +:+ nl +:+ nl
  +:+ "Generated: " +:+ date +:+ nl
  +:+ "Strategy: " +:+ strategy +:+ nl
  +:+ "Status: IN_PROGRESS" +:+ nl
  +:+ "Total tasks: " +:+ pretty total_tasks +:+ nl
  +:+ "Completed: 0" +:+ nl +:+ nl
  +:+ "---" +:+ nl +:+ nl
  +:+ tasks +:+ nl.

(** Lines 36-51: [PROGRESS_TEMPLATE.format(...)]. *)
Definition PROGRESS_TEMPLATE_format (date first_task_title next_up : string)
    : string :=
  "# Progress" +:+ nl +:+ nl
  +:+ "Generated: " +:+ date +:+ nl +:+ nl
  +:+ "## Current Task" +:+ nl
  +:+ "Task 1: " +:+ first_task_title +:+ nl
  +:+ "Status: not started" +:+ nl +:+ nl
  +:+ "## Completed" +:+ nl
  +:+ "(none)" +:+ nl +:+ nl
  +:+ "## Next Up" +:+ nl
  +:+ next_up +:+ nl +:+ nl
  +:+ "## Blockers" +:+ nl
  +:+ "(none)" +:+ nl.

(** Lines 92-96. *)
Definition layer_order : list string :=
  ["infrastructure"; "model"; "migration"; "schema"; "repository";
   "service"; "router"; "types"; "api-service"; "hook";
   "component"; "page"; "unit-test"; "integration-test"; "e2e-test"].

(** Line 99: [layer_order.index(x) if x in layer_order else 99]. *)
Definition layer_key (x : string) : nat :=
  match list_find (λ y, y = x) layer_order with
  | Some (i, _) => i
  | None => 99
  end.

(** [sorted(l, key=key)]: the stable sort by key.  Written as the insertion
    of each element, from the last to the first, before the first element
    whose key is not smaller. *)
Fixpoint insert_by_key {A} (key : A → nat) (x : A) (l : list A) : list A :=
  match l with
  | [] => [x]
  | y :: l' =>
      if decide (key x ≤ key y) then x :: l else y :: insert_by_key key x l'
  end.

Fixpoint sorted_by_key {A} (key : A → nat) (l : list A) : list A :=
  match l with
  | [] => []
  | x :: l' => insert_by_key key x (sorted_by_key key l')
  end.

(** Lines 101-113: the loop over the ordered layers, from the counter
    [task_num] before it to the arguments of the [format] calls it makes and
    the counter after it. *)
Fixpoint layer_tasks (task_num : Z) (ordered_layers : list string)
    : list TaskFields * Z :=
  match ordered_layers with
  | [] => ([], task_num)
  | layer :: rest =>
      let task_num := (task_num + 1)%Z in
      let a :=
        mkFields task_num
          ("Implement " +:+ layer +:+ " layer")
          ("`app/" +:+ layer +:+ "s/` or `src/" +:+ layer +:+ "s/`")
          (if decide (1 < task_num)%Z
           then "Task " +:+ pretty (task_num - 1)%Z else "none")
          ("  1. Create/update " +:+ layer +:+ " implementation" +:+ nl
             +:+ "  2. Follow project conventions")
          ("Tests for " +:+ layer +:+ " pass")
          "small" "must be sequential" in
      let '(tasks, task_num) := layer_tasks task_num rest in
      (a :: tasks, task_num)
  end.

(** Lines 82-175, up to the text assembly: the arguments of the successive
    [TASK_TEMPLATE.format] calls, in the order their results are appended to
    [tasks], and the final value of [task_num]. *)
Definition generate_tasks (objective_data : ObjectiveData)
    : list TaskFields * Z :=
  let feature_name := default "Unnamed Feature" (feature_name objective_data) in
  let strategy := default "layer-based" (strategy objective_data) in
  let layers := default [] (layers objective_data) in
  let objective := default "" (objective objective_data) in
  let task_num := 0%Z in
  let '(tasks, task_num) :=
    if decide (strategy = "layer-based") then
      layer_tasks task_num (sorted_by_key layer_key layers)
    else if decide (strategy = "feature-first") then
      let task_num := (task_num + 1)%Z in
      let backend :=
        mkFields task_num ("Implement " +:+ feature_name +:+ " - backend slice")
          "Backend files for feature" "none"
          ("  1. Implement backend feature slice" +:+ nl
             +:+ "  2. Add unit tests")
          "Backend tests pass" "medium" "Can run alongside frontend design" in
      let task_num := (task_num + 1)%Z in
      let frontend :=
        mkFields task_num ("Implement " +:+ feature_name +:+ " - frontend slice")
          "Frontend files for feature" ("Task " +:+ pretty (task_num - 1)%Z)
          ("  1. Implement frontend feature slice" +:+ nl
             +:+ "  2. Add component tests")
          "Frontend tests pass" "medium" "must be sequential" in
      ([backend; frontend], task_num)
    else if decide (strategy = "migration") then
      let task_num := (task_num + 1)%Z in
      let alongside :=
        mkFields task_num "Implement new path alongside old path"
          "New implementation files" "none"
          ("  1. Create new implementation" +:+ nl
             +:+ "  2. Keep old path untouched")
          "New path tests pass AND old path still works"
          "medium" "must be sequential" in
      let task_num := (task_num + 1)%Z in
      let dual_write :=
        mkFields task_num "Dual-write to both old and new paths"
          "Integration points" ("Task " +:+ pretty (task_num - 1)%Z)
          ("  1. Add dual-write logic" +:+ nl
             +:+ "  2. Verify both paths produce identical results")
          "Integration tests confirm both paths match"
          "medium" "must be sequential" in
      let task_num := (task_num + 1)%Z in
      let switch :=
        mkFields task_num "Switch to new path and remove old path"
          "Old implementation files, integration points"
          ("Task " +:+ pretty (task_num - 1)%Z)
          ("  1. Remove old path references" +:+ nl
             +:+ "  2. Clean up dual-write code")
          "All tests pass with only new path"
          "medium" "must be sequential" in
      ([alongside; dual_write; switch], task_num)
    else ([], task_num) in
  match tasks with
  | [] =>
      let task_num := (task_num + 1)%Z in
      ([mkFields task_num ("Implement " +:+ feature_name) "TBD" "none"
          ("  1. " +:+ objective) "TBD" "medium" "must be sequential"],
       task_num)
  | _ :: _ => (tasks, task_num)
  end.

(** Lines 82-192, [date] standing for
    [datetime.now().strftime("%Y-%m-%d")]. *)
Definition generate_task_plan (date : string) (objective_data : ObjectiveData)
    : string :=
  let feature_name := default "Unnamed Feature" (feature_name objective_data) in
  let strategy := default "layer-based" (strategy objective_data) in
  let constraints := default [] (constraints objective_data) in
  let '(tasks, task_num) := generate_tasks objective_data in
  let constraints_section :=
    match constraints with
    | [] => ""
    | _ :: _ =>
        nl +:+ "## Constraints" +:+ nl
        +:+ PyStr.join nl (map (λ c, "- " +:+ c) constraints) +:+ nl
    end in
  let plan :=
    TASK_PLAN_TEMPLATE_format feature_name date strategy task_num
      (PyStr.join nl (map TASK_TEMPLATE_format tasks)) in
  if decide (constraints_section = "") then plan
  else plan +:+ constraints_section.

(** [range(a, b)] *)
Definition range (a b : Z) : list Z :=
  map (λ i, (a + Z.of_nat i)%Z) (seq 0 (Z.to_nat (b - a))).

(** Lines 198-200: the accumulation of [next_up]. *)
Definition next_up_lines (total : Z) : string :=
  fold_left (λ next_up i, next_up +:+ "- [ ] Task " +:+ pretty i +:+ nl)
            (range 2 (Z.min (total + 1) 6)) "".

(** Lines 195-206. *)
Definition generate_progress (date : string) (tasks_text first_title : string)
    (total : Z) : string :=
  let next_up := next_up_lines total in
  PROGRESS_TEMPLATE_format date first_title
    (if decide (next_up = "") then "(none)" else next_up).

End Decompose.
(** The Preconditions text every generated task carries: "none" for the task
    numbered 1, "Task k-1" for the task numbered k. *)
Definition chained (a : Decompose.TaskFields) : Prop :=
  (1 ≤ Decompose.num a)%Z ∧
  Decompose.preconditions a
  = if decide (1 < Decompose.num a)%Z
    then "Task " +:+ pretty (Decompose.num a - 1)%Z else "none".
(** No element of [l] has a larger key than an element after it. *)
Fixpoint nondecreasing {A} (key : A → nat) (l : list A) : Prop :=
  match l with
  | [] => True
  | x :: l' => Forall (λ y, key x ≤ key y) l' ∧ nondecreasing key l'
  end.
(** The field matches of a block hold the texts the generator wrote for the
    task [a]. *)
Definition reads (a : Decompose.TaskFields) (m : BlockMatch) : Prop :=
  header_num m = Decompose.num a ∧
  files_match m = Some (Decompose.files a) ∧
  preconditions_match m = Some (Decompose.preconditions a) ∧
  done_match m = Some (Decompose.done_when a) ∧
  complexity_match m = Some (Decompose.complexity a).

(** What the validator's hard rules ask of the texts of one generated task. *)
Definition fields_ok (a : Decompose.TaskFields) : Prop :=
  length (parse_files (Some (Decompose.files a))) ≤ 3 ∧
  PyStr.strip (Decompose.done_when a) ≠ "" ∧
  PyStr.lower (Decompose.complexity a) ≠ "".
(** A feature-first objective and the field matches of the two blocks the
    generator writes for it. *)
Definition search_objective : Decompose.ObjectiveData :=
  Decompose.mkObjective (Some "Search") (Some "feature-first") None None None.

Definition search_blocks : list BlockMatch :=
  [mkBlock 1 "Implement Search - backend slice"
     (Some "Backend files for feature") (Some "none")
     (Some "Backend tests pass") (Some "medium")
     (Some "Can run alongside frontend design") true;
   mkBlock 2 "Implement Search - frontend slice"
     (Some "Frontend files for feature") (Some "Task 1")
     (Some "Frontend tests pass") (Some "medium")
     (Some "must be sequential") true].

(** * The report of [validate-plan.py] (lines 210-243) *)

(** The list [lines] at the [return] of [format_report_md], [date] standing
    for [datetime.now().strftime('%Y-%m-%d %H:%M')]. *)
Definition report_lines (date : string) (validation : ValidationResult)
    (filepath : string) : list string :=
  let status := if passed validation then "PASS" else "FAIL" in
  let lines :=
    ["# Task Plan Validation Report";
     "";
     "**File:** " +:+ filepath;
     "**Date:** " +:+ date;
     "**Status:** " +:+ status;
     "**Tasks:** " +:+ pretty (total_tasks validation);
     "**Errors:** " +:+ pretty (errors validation);
     "**Warnings:** " +:+ pretty (warnings validation);
     ""] in
  let lines :=
    match issues validation with
    | [] => lines
    | _ :: _ =>
        (lines ++ ["## Errors"; ""])
          ++ map (λ issue, "- **[" +:+ rule issue +:+ "]** " +:+ message issue)
                 (issues validation)
          ++ [""]
    end in
  let lines :=
    match warnings_list validation with
    | [] => lines
    | _ :: _ =>
        (lines ++ ["## Warnings"; ""])
          ++ map (λ warning,
                    "- **[" +:+ rule warning +:+ "]** " +:+ message warning)
                 (warnings_list validation)
          ++ [""]
    end in
  if passed validation && bool_decide (warnings_list validation = [])
  then lines ++ ["All tasks pass validation rules."; ""]
  else lines.

Definition format_report_md (date : string) (validation : ValidationResult)
    (filepath : string) : string :=
  PyStr.join Decompose.nl (report_lines date validation filepath).

(** A line of the report that lists a finding. *)
Definition is_bullet (line : string) : Prop :=
  is_Some (PyStr.strip_prefix "- **[" line).

Global Instance is_bullet_dec line : Decision (is_bullet line) :=
  decide (is_Some (PyStr.strip_prefix "- **[" line)).

(** * The layer of a file path in [plan-generator.py] (lines 262-292) *)
Module PlanGenerator.

(** [sub in s] of Python on [str]: [sub] occurs in [s] at some position. *)
Fixpoint contains (sub s : string) : bool :=
  match PyStr.strip_prefix sub s with
  | Some _ => true
  | None =>
      match s with
      | EmptyString => false
      | String _ s' => contains sub s'
      end
  end.

(** The loop [for key, layer in mapping.items(): if key in filepath: return
    layer] followed by [return "Other"]; a dict literal is iterated in the
    order in which it is written. *)
Fixpoint first_layer (items : list (string * string)) (filepath : string)
    : string :=
  match items with
  | [] => "Other"
  | (key, layer) :: items =>
      if contains key filepath then layer else first_layer items filepath
  end.

Definition backend_mapping : list (string * string) :=
  [("models", "Model"); ("schemas", "Schema");
   ("repositories", "Repository"); ("services", "Service");
   ("routers", "Router"); ("dependencies", "Dependency");
   ("config", "Config"); ("alembic", "Migration")].

Definition _infer_layer (filepath : string) : string :=
  first_layer backend_mapping filepath.

Definition frontend_mapping : list (string * string) :=
  [("pages", "Page"); ("components", "Component"); ("hooks", "Hook");
   ("services", "Service"); ("types", "Type")].

Definition _infer_frontend_layer (filepath : string) : string :=
  first_layer frontend_mapping filepath.

End PlanGenerator.

(** [key] is a substring of [s]. *)
Definition occurs (key s : string) : Prop :=
  ∃ before after, s = before +:+ key +:+ after.

(** [layer] is what the first key of [mapping] that occurs in [filepath]
    maps to, and ["Other"] when no key occurs. *)
Definition first_key_layer (mapping : list (string * string))
    (filepath layer : string) : Prop :=
  (layer = "Other" ∧ ∀ key, key ∈ mapping.*1 → ¬ occurs key filepath)
  ∨ ∃ earlier key later,
      mapping = earlier ++ (key, layer) :: later ∧
      occurs key filepath ∧
      ∀ key', key' ∈ earlier.*1 → ¬ occurs key' filepath.

(** * The structured plan of [plan-generator.py] (lines 241-259) *)
Module PlanJson.

(** The attributes of [args] that [generate_plan_json] reads. *)
Record Args := mkArgs {
  feature_name : string;
  author : string;
  complexity : string;
  objective : string;
  backend_files : list string;
  frontend_files : list string;
  tasks : list string;
  risks : list string;
  has_migration : bool;
  has_rsc : bool
}.

(** An entry of the list under the key ["tasks"]. *)
Record PlanTask := mkPlanTask {
  id : Z;
  title : string;
  preconditions : list Z
}.

(** The dict that [generate_plan_json] returns, one field for each key. *)
Record Plan := mkPlan {
  plan_feature_name : string;
  plan_date : string;
  plan_author : string;
  plan_status : string;
  plan_complexity : string;
  plan_objective : string;
  plan_backend_files : list string;
  plan_frontend_files : list string;
  plan_tasks : list PlanTask;
  plan_risks : list string;
  plan_has_migration : bool;
  plan_has_rsc : bool
}.

(** [enumerate(l, start)] *)
Fixpoint enumerate {A} (l : list A) (start : Z) : list (Z * A) :=
  match l with
  | [] => []
  | x :: l => (start, x) :: enumerate l (start + 1)
  end.

(** [date] stands for [datetime.now().strftime("%Y-%m-%d")]. *)
Definition generate_plan_json (date : string) (args : Args) : Plan :=
  {| plan_feature_name := feature_name args;
     plan_date := date;
     plan_author := author args;
     plan_status := "Draft";
     plan_complexity := complexity args;
     plan_objective := objective args;
     plan_backend_files := backend_files args;
     plan_frontend_files := frontend_files args;
     plan_tasks :=
       map (λ '(i, task),
              {| id := i; title := task;
                 preconditions := if decide (i > 1)%Z then [i - 1]%Z else [] |})
           (enumerate (tasks args) 1);
     plan_risks := risks args;
     plan_has_migration := has_migration args;
     plan_has_rsc := has_rsc args |}.

End PlanJson.

(** * Lemmas *)

(** ** The result monad and the graph dictionary *)

Lemma bind_Ok_inv {A B} (r : Res A) (f : A → Res B) b :
  r ≫= f = Ok b → ∃ a, r = Ok a ∧ f a = Ok b.
Proof. destruct r; simpl; intros H; try discriminate. eauto. Qed.

Lemma dict_get_not_key g k : k ∉ dict_keys g → dict_get g k = [].
Proof.
  induction g as [|[k' v] g IH]; simpl; [done|].
  intros Hk. case_decide as Hd.
  - subst. exfalso. apply Hk. left.
  - apply IH. intros Hin. apply Hk. by right.
Qed.

Lemma dict_get_universe g node d : d ∈ dict_get g node → d ∈ universe g.
Proof.
  intros Hd. unfold universe, graph_nodes.
  rewrite elem_of_list_to_set, elem_of_app. right.
  apply list_elem_of_bind. exists node. split; [done|].
  destruct (decide (node ∈ dict_keys g)) as [|Hn]; [done|].
  rewrite (dict_get_not_key _ _ Hn) in Hd. by apply elem_of_nil in Hd.
Qed.

Lemma dict_keys_universe g k : k ∈ dict_keys g → k ∈ universe g.
Proof.
  intros Hk. unfold universe, graph_nodes.
  rewrite elem_of_list_to_set, elem_of_app. by left.
Qed.

Lemma dfs_frame_refl g st : stack_inv st → dfs_frame g st st.
Proof.
  intros Hi. split; try done; [set_solver|].
  exists []. by rewrite app_nil_r.
Qed.

Lemma dfs_frame_trans g s1 s2 s3 :
  dfs_frame g s1 s2 → dfs_frame g s2 s3 → dfs_frame g s1 s3.
Proof.
  intros [p1 r1 g1 w1 c1 i1 e1 (n1 & y1 & F1)] [p2 r2 g2 w2 c2 i2 e2 (n2 & y2 & F2)].
  split; [congruence|congruence|clear -g1 g2; set_solver
         |clear -w1 w2; set_solver|lia|done|auto|].
  exists (n1 ++ n2). rewrite y2, y1, <- app_assoc. split; [done|].
  by apply Forall_app.
Qed.

Lemma enter_inv node st :
  stack_inv st → stack_inv (enter node st).
Proof.
  intros [Hs Hv]. split; simpl.
  - rewrite list_to_set_app_L, Hs. set_solver.
  - set_solver.
Qed.

Lemma enter_explored g node st :
  explored g st → explored g (enter node st).
Proof.
  intros He v d; simpl. intros Hv Hr Hd.
  assert (v ∈ visited st) by set_solver.
  assert (v ∉ rec_stack st) by set_solver.
  specialize (He v d). set_solver.
Qed.

Lemma enter_todo g node st :
  node ∈ universe g → node ∉ visited st →
  S (size (universe g ∖ visited (enter node st))) ≤ size (universe g ∖ visited st).
Proof.
  intros Hu Hv. simpl.
  assert (universe g ∖ ({[node]} ∪ visited st) ⊂ universe g ∖ visited st) as Hsub.
  { split; [set_solver|]. intros Hc. specialize (Hc node). set_solver. }
  apply subset_size in Hsub. lia.
Qed.

Lemma record_cycle_ok g neighbor st :
  stack_inv st → neighbor ∈ rec_stack st →
  ∃ i, path st !! i = Some neighbor ∧
       record_cycle neighbor st =
         Ok (mkDfs (visited st) (rec_stack st) (path st)
               (cycles st ++ [drop i (path st) ++ [neighbor]]) (calls st)) ∧
       dfs_frame g st
         (mkDfs (visited st) (rec_stack st) (path st)
            (cycles st ++ [drop i (path st) ++ [neighbor]]) (calls st)).
Proof.
  intros [Hs Hv] Hn. unfold record_cycle, py_index.
  rewrite Hs, elem_of_list_to_set in Hn.
  destruct (list_find (λ y, y = neighbor) (path st)) as [[i y]|] eqn:Hf.
  - apply list_find_Some in Hf as (Hi & -> & _).
    exists i. split; [done|]. split; [done|].
    split; simpl; try done; [set_solver|].
    eexists. split; [done|]. apply Forall_singleton.
    exists neighbor, (drop (S i) (path st)).
    by rewrite (drop_S _ _ _ Hi).
  - apply list_find_None in Hf. rewrite Forall_forall in Hf.
    exfalso. by apply (Hf neighbor).
Qed.

Section dfs_rules.
Variable g : Graph.

Lemma visit_neighbors_ok fuel (IH : dfs_meets g fuel) neighbors :
  ∀ st,
    stack_inv st → (∀ d, d ∈ neighbors → d ∈ universe g) →
    size (universe g ∖ visited st) ≤ fuel →
    ∃ st', visit_neighbors (dfs fuel g) neighbors st = Ok st' ∧
           dfs_frame g st st' ∧
           (∀ d, d ∈ neighbors → d ∈ visited st') ∧
           (∀ rank, descends g rank →
                    (∀ d, d ∈ neighbors → below rank d (path st)) →
                    cycles st' = cycles st).
Proof.
  induction neighbors as [|d ns IHns]; intros st Hinv Hu Hsz.
  - exists st. split; [done|]. split; [by apply dfs_frame_refl|].
    split; [|done]. intros d Hd. by apply elem_of_nil in Hd.
  - assert (∃ s1, (if decide (d ∉ visited st) then dfs fuel g d st
                   else if decide (d ∈ rec_stack st) then record_cycle d st
                   else Ok st) = Ok s1 ∧ dfs_frame g st s1 ∧ d ∈ visited s1 ∧
               (∀ rank, descends g rank → below rank d (path st) →
                        cycles s1 = cycles st)) as (s1 & Hs1 & Hf1 & Hd1 & Hc1).
    { case_decide as Hv.
      - apply IH; [done|done| |done]. apply Hu. left.
      - case_decide as Hr.
        + destruct (record_cycle_ok g d st Hinv Hr) as (i & Hi & -> & Hfr).
          eexists. split; [done|]. split; [done|]. split; [done|].
          intros rank Hdesc Hbelow. exfalso.
          destruct Hinv as [Hs _]. rewrite Hs, elem_of_list_to_set in Hr.
          specialize (Hbelow d Hr). lia.
        + exists st. split; [done|]. split; [by apply dfs_frame_refl|]. done. }
    destruct (IHns s1) as (s2 & Hs2 & Hf2 & Hd2 & Hc2).
    { apply Hf1. }
    { intros d' Hd'. apply Hu. by right. }
    { destruct Hf1 as [_ _ Hg _ _ _ _ _].
      etrans; [|exact Hsz]. apply subseteq_size. set_solver. }
    exists s2. simpl. rewrite Hs1. simpl. split; [exact Hs2|].
    split; [by eapply dfs_frame_trans|]. split.
    + intros d' [->|Hd']%elem_of_cons; [|by apply Hd2].
      destruct Hf2 as [_ _ Hg _ _ _ _ _]. set_solver.
    + intros rank Hdesc Hbelow.
      rewrite (Hc2 rank Hdesc), (Hc1 rank Hdesc); [done| |].
      * apply Hbelow. left.
      * intros d' Hd'. destruct Hf1 as [Hp _ _ _ _ _ _ _]. rewrite Hp.
        apply Hbelow. by right.
Qed.

Lemma dfs_ok fuel : dfs_meets g fuel.
Proof.
  induction fuel as [|fuel IH]; intros node st Hinv Hv Hu Hsz.
  - pose proof (enter_todo g node st Hu Hv). lia.
  - pose proof (enter_todo g node st Hu Hv) as Htodo.
    destruct (visit_neighbors_ok fuel IH (dict_get g node) (enter node st))
      as (s1 & Hs1 & Hf1 & Hd1 & Hc1).
    { by apply enter_inv. }
    { intros d. apply dict_get_universe. }
    { lia. }
    destruct Hf1 as [Hp Hr Hg Hw Hc [Hi1 Hi2] He Hcy].
    destruct Hinv as [Hs Hsub].
    assert (node ∉ rec_stack st) as Hnr by set_solver.
    simpl in Hp, Hr, Hg, Hw, Hc.
    exists (mkDfs (visited s1) (rec_stack s1 ∖ {[node]}) (removelast (path s1))
              (cycles s1) (calls s1)).
    split.
    { simpl. rewrite Hs1. simpl. unfold leave. rewrite Hp.
      destruct (path st ++ [node]) eqn:Hcons; [|done].
      by apply app_eq_nil in Hcons as [_ ?]. }
    split; [split; simpl|split; simpl].
    + rewrite Hp. apply removelast_last.
    + rewrite Hr. clear -Hnr. set_solver.
    + clear -Hg. set_solver.
    + clear -Hw Hu. set_solver.
    + rewrite size_union, size_singleton in Hc by (clear -Hv; set_solver). lia.
    + split; simpl.
      * rewrite Hp, removelast_last, Hr, <- Hs. set_solver.
      * rewrite Hr. set_solver.
    + intros Hex v d; simpl. intros Hvv Hvr Hvd.
      destruct (decide (v = node)) as [->|Hne]; [by apply Hd1|].
      apply (He (enter_explored g node st Hex) v d); [done| |done].
      rewrite Hr. set_solver.
    + exact Hcy.
    + set_solver.
    + intros rank Hdesc Hbelow. rewrite (Hc1 rank Hdesc); [done|].
      intros d Hd x. simpl. intros [Hx| ->%list_elem_of_singleton]%elem_of_app.
      * specialize (Hbelow x Hx). specialize (Hdesc node d Hd). lia.
      * by apply Hdesc.
Qed.
End dfs_rules.

(** ** Fuel *)

Lemma visit_neighbors_mono (rec rec' : Z → DfsState → Res DfsState) neighbors :
  (∀ n st st', rec n st = Ok st' → rec' n st = Ok st') →
  ∀ st st', visit_neighbors rec neighbors st = Ok st' →
            visit_neighbors rec' neighbors st = Ok st'.
Proof.
  intros Hrec. induction neighbors as [|d ns IH]; intros st st'; simpl; [done|].
  intros (s1 & Hs1 & Hs2)%bind_Ok_inv.
  assert ((if decide (d ∉ visited st) then rec' d st
           else if decide (d ∈ rec_stack st) then record_cycle d st
           else Ok st) = Ok s1) as ->.
  { repeat case_decide; auto. }
  simpl. by apply IH.
Qed.

Lemma dfs_fuel_mono g fuel :
  ∀ fuel' node st st',
    fuel ≤ fuel' → dfs fuel g node st = Ok st' → dfs fuel' g node st = Ok st'.
Proof.
  induction fuel as [|fuel IH]; intros fuel' node st st' Hle; simpl; [done|].
  destruct fuel' as [|fuel']; [lia|]. simpl.
  intros (s1 & Hs1 & Hs2)%bind_Ok_inv.
  rewrite (visit_neighbors_mono (dfs fuel g) (dfs fuel' g) _
             (λ n s s', IH fuel' n s s' ltac:(lia)) _ _ Hs1).
  done.
Qed.

Lemma visit_roots_mono g fuel fuel' roots :
  fuel ≤ fuel' →
  ∀ st st', visit_roots fuel g roots st = Ok st' →
            visit_roots fuel' g roots st = Ok st'.
Proof.
  intros Hle. induction roots as [|r rs IH]; intros st st'; simpl; [done|].
  intros (s1 & Hs1 & Hs2)%bind_Ok_inv.
  assert ((if decide (r ∉ visited st)
           then dfs fuel' g r (mkDfs (visited st) (rec_stack st) [] (cycles st) (calls st))
           else Ok st) = Ok s1) as ->.
  { case_decide; [|done]. by eapply dfs_fuel_mono. }
  simpl. by apply IH.
Qed.

Lemma size_list_to_set_le (l : list Z) :
  size (list_to_set l : gset Z) ≤ length l.
Proof.
  induction l as [|x l IH].
  - rewrite list_to_set_nil, size_empty. done.
  - rewrite list_to_set_cons, size_union_alt, size_singleton. simpl.
    assert (size (list_to_set l ∖ {[x]} : gset Z) ≤ size (list_to_set l : gset Z)).
    { apply subseteq_size. set_solver. }
    lia.
Qed.

(** ** The outer loop *)

Lemma visit_roots_ok g fuel roots :
  ∀ st,
    path st = [] → stack_inv st → (∀ r, r ∈ roots → r ∈ universe g) →
    size (universe g ∖ visited st) ≤ fuel →
    ∃ st', visit_roots fuel g roots st = Ok st' ∧ path st' = [] ∧
           dfs_frame g st st' ∧ (∀ r, r ∈ roots → r ∈ visited st') ∧
           (∀ rank, descends g rank → cycles st' = cycles st).
Proof.
  induction roots as [|r rs IH]; intros st Hp Hinv Hu Hsz.
  - exists st. split; [done|]. split; [done|].
    split; [by apply dfs_frame_refl|]. split; [|done].
    intros r Hr. by apply elem_of_nil in Hr.
  - assert (mkDfs (visited st) (rec_stack st) [] (cycles st) (calls st) = st)
      as Hst by (destruct st; simpl in *; by subst).
    assert (∃ s1, (if decide (r ∉ visited st)
                   then dfs fuel g r (mkDfs (visited st) (rec_stack st) []
                                        (cycles st) (calls st))
                   else Ok st) = Ok s1 ∧ dfs_frame g st s1 ∧ r ∈ visited s1 ∧
               (∀ rank, descends g rank → cycles s1 = cycles st))
      as (s1 & Hs1 & Hf1 & Hr1 & Hc1).
    { rewrite Hst. case_decide as Hv.
      - destruct (dfs_ok g fuel r st) as (s1 & Hs1 & Hf1 & Hr1 & Hc1);
          [done|done| |done|].
        { apply Hu. left. }
        exists s1. split; [done|]. split; [done|]. split; [done|].
        intros rank Hdesc. apply (Hc1 rank Hdesc).
        rewrite Hp. intros x Hx. by apply elem_of_nil in Hx.
      - exists st. split; [done|]. split; [by apply dfs_frame_refl|].
        by split. }
    destruct (IH s1) as (s2 & Hs2 & Hp2 & Hf2 & Hr2 & Hc2).
    { destruct Hf1 as [Hp1 _ _ _ _ _ _ _]. congruence. }
    { apply Hf1. }
    { intros r' Hr'. apply Hu. by right. }
    { destruct Hf1 as [_ _ Hg _ _ _ _ _].
      etrans; [|exact Hsz]. apply subseteq_size. set_solver. }
    exists s2. simpl. rewrite Hs1. simpl. split; [done|]. split; [done|].
    split; [by eapply dfs_frame_trans|]. split.
    + intros r' [->|Hr']%elem_of_cons; [|by apply Hr2].
      destruct Hf2 as [_ _ Hg _ _ _ _ _]. set_solver.
    + intros rank Hdesc. by rewrite (Hc2 rank Hdesc), (Hc1 rank Hdesc).
Qed.

Lemma dfs_init_inv : stack_inv dfs_init.
Proof. split; simpl; set_solver. Qed.

(** The whole search from the empty state: it returns, every node of the
    graph is visited, by exactly one activation each, and a graph with a
    descending rank yields no cycle. *)
Lemma search_ok g fuel :
  size (universe g) ≤ fuel →
  ∃ st, visit_roots fuel g (dict_keys g) dfs_init = Ok st ∧
        visited st = universe g ∧ calls st = size (universe g) ∧
        rec_stack st = ∅ ∧ path st = [] ∧ Forall closed_walk (cycles st) ∧
        (∀ rank, descends g rank → cycles st = []).
Proof.
  intros Hsz.
  destruct (visit_roots_ok g fuel (dict_keys g) dfs_init)
    as (st & Hst & Hp & [_ Hr Hg Hw Hc Hi He Hcy] & Hroots & Hcyc).
  { done. }
  { apply dfs_init_inv. }
  { apply dict_keys_universe. }
  { etrans; [|exact Hsz]. apply subseteq_size. set_solver. }
  simpl in Hr, Hg, Hw.
  change (visited dfs_init) with (∅ : gset Z) in Hc.
  change (calls dfs_init) with 0 in Hc. rewrite size_empty in Hc.
  exists st. split; [done|].
  assert (explored g st) as Hex.
  { apply He. intros v d Hv. simpl in Hv. set_solver. }
  assert (visited st = universe g) as Hvis.
  { apply set_eq. intros x. split; [set_solver|].
    unfold universe, graph_nodes.
    rewrite elem_of_list_to_set, elem_of_app, list_elem_of_bind.
    intros [Hk|(k & Hx & Hk)]; [by apply Hroots|].
    apply (Hex k x); [by apply Hroots| |done]. rewrite Hr. set_solver. }
  split; [done|]. split.
  { rewrite <- Hvis. lia. }
  split; [done|]. split; [done|]. split; [|exact Hcyc].
  destruct Hcy as (new & -> & Hnew). done.
Qed.

(** ** The dependency graph of a task list *)

Lemma dict_get_set g k v k' :
  dict_get (dict_set g k v) k' = if decide (k = k') then v else dict_get g k'.
Proof.
  induction g as [|[k0 v0] g IH]; simpl.
  - done.
  - destruct (decide (k0 = k)) as [->|Hne]; simpl.
    + by destruct (decide (k = k')).
    + rewrite IH. destruct (decide (k0 = k')) as [->|]; [|done].
      by rewrite decide_False by congruence.
Qed.

Lemma dict_keys_set g k v k' :
  k' ∈ dict_keys (dict_set g k v) ↔ k' = k ∨ k' ∈ dict_keys g.
Proof.
  unfold dict_keys. induction g as [|[k0 v0] g IH]; simpl.
  - rewrite list_elem_of_singleton. set_solver.
  - destruct (decide (k0 = k)) as [->|Hne]; simpl.
    + set_solver.
    + rewrite !elem_of_cons, IH. tauto.
Qed.

Lemma fold_graph_get tasks : ∀ g k d,
  d ∈ dict_get (fold_left (λ g t, dict_set g (num t) (preconditions t)) tasks g) k →
  d ∈ dict_get g k ∨ ∃ t, t ∈ tasks ∧ num t = k ∧ d ∈ preconditions t.
Proof.
  induction tasks as [|t ts IH]; intros g k d; simpl; [by left|].
  intros [Hd|(t' & Ht' & Hk & Hd)]%IH.
  - rewrite dict_get_set in Hd. case_decide as Hk; [|by left].
    right. exists t. split; [left|done].
  - right. exists t'. split; [by right|done].
Qed.

Lemma fold_graph_keys tasks : ∀ g k,
  k ∈ dict_keys (fold_left (λ g t, dict_set g (num t) (preconditions t)) tasks g) ↔
  k ∈ dict_keys g ∨ k ∈ map num tasks.
Proof.
  induction tasks as [|t ts IH]; intros g k; simpl.
  - rewrite elem_of_nil. tauto.
  - rewrite IH, dict_keys_set, elem_of_cons. tauto.
Qed.

Lemma build_graph_get tasks k d :
  d ∈ dict_get (build_graph tasks) k →
  ∃ t, t ∈ tasks ∧ num t = k ∧ d ∈ preconditions t.
Proof.
  intros [Hd|?]%fold_graph_get; [|done]. by apply elem_of_nil in Hd.
Qed.

Lemma build_graph_keys tasks k :
  k ∈ dict_keys (build_graph tasks) ↔ k ∈ map num tasks.
Proof.
  unfold build_graph. rewrite fold_graph_keys. simpl. rewrite elem_of_nil. tauto.
Qed.

Lemma universe_plan_numbers tasks :
  universe (build_graph tasks) ⊆ plan_numbers tasks.
Proof.
  intros x. unfold universe, graph_nodes, plan_numbers.
  rewrite !elem_of_list_to_set, !elem_of_app, !list_elem_of_bind.
  intros [Hk|(k & Hx & Hk)].
  - left. by apply build_graph_keys.
  - right. apply build_graph_get in Hx as (t & Ht & _ & Hd). eauto.
Qed.

Lemma enough_fuel_covers tasks :
  size (universe (build_graph tasks)) ≤ enough_fuel tasks.
Proof.
  unfold enough_fuel, universe.
  pose proof (size_list_to_set_le (graph_nodes (build_graph tasks))). lia.
Qed.

(** ** [detect_cycles] and [validate_tasks] return *)

Lemma run_dfs_ok tasks fuel :
  size (universe (build_graph tasks)) ≤ fuel →
  ∃ st, run_dfs fuel tasks = Ok st ∧
        visited st = universe (build_graph tasks) ∧
        calls st = size (universe (build_graph tasks)) ∧
        Forall closed_walk (cycles st) ∧
        (∀ rank, descends (build_graph tasks) rank → cycles st = []).
Proof.
  intros Hsz.
  destruct (search_ok (build_graph tasks) fuel Hsz)
    as (st & Hst & Hv & Hc & _ & _ & Hw & Hr).
  by exists st.
Qed.

Lemma run_dfs_fuel_irrelevant tasks fuel :
  size (universe (build_graph tasks)) ≤ fuel →
  run_dfs fuel tasks = run_dfs (enough_fuel tasks) tasks.
Proof.
  intros Hsz.
  destruct (run_dfs_ok tasks _ (Nat.le_refl _)) as (st & Hst & _).
  unfold run_dfs in *.
  rewrite (visit_roots_mono _ _ fuel _ Hsz _ _ Hst).
  by rewrite (visit_roots_mono _ _ (enough_fuel tasks) _
                (enough_fuel_covers tasks) _ _ Hst).
Qed.

Lemma detect_cycles_ok tasks :
  ∃ cs, detect_cycles tasks = Ok cs ∧ Forall closed_walk cs ∧
        (∀ rank, descends (build_graph tasks) rank → cs = []).
Proof.
  destruct (run_dfs_ok tasks _ (enough_fuel_covers tasks))
    as (st & Hst & _ & _ & Hw & Hr).
  exists (cycles st). unfold detect_cycles. rewrite Hst. done.
Qed.

Lemma cycle_issue_ok c : closed_walk c → cycle_issue c = Ok (cycle_finding c).
Proof. by intros (x & mid & ->). Qed.

Lemma report_cycles_ok cs : ∀ issues,
  Forall closed_walk cs →
  report_cycles cs issues = Ok (issues ++ map cycle_finding cs).
Proof.
  induction cs as [|c cs IH]; intros issues Hw; simpl.
  - by rewrite app_nil_r.
  - apply Forall_cons in Hw as [Hc Hw].
    rewrite (cycle_issue_ok c Hc). simpl. rewrite IH by done.
    by rewrite <- app_assoc.
Qed.

(** ** The rule loop is the rule table *)

Lemma check_preconditions_eq task_nums t issues :
  check_preconditions task_nums t issues
  = issues ++ rule_preconditions task_nums t.
Proof.
  unfold check_preconditions, rule_preconditions, dangling.
  revert issues. induction (preconditions t) as [|d ds IH]; intros issues; simpl.
  - by rewrite app_nil_r.
  - rewrite IH. rewrite filter_cons. case_decide; simpl.
    + by rewrite <- app_assoc.
    + done.
Qed.

Lemma check_task_eq order task_nums issues warnings t :
  check_task order task_nums (issues, warnings) t
  = (issues ++ task_issues task_nums t, warnings ++ task_warnings order t).
Proof.
  unfold check_task, task_issues, task_warnings, rule_atomic_scope,
    rule_verifiable, rule_placeholder, rule_steps, rule_complexity,
    rule_nonstandard, rule_files.
  cbv zeta.
  destruct (decide (3 < file_count t));
    destruct (decide (done_when t = ""));
    destruct (decide (PyStr.lower (done_when t) ∈ ["tbd"; "todo"; "n/a"]));
    destruct (has_steps t);
    destruct (decide (complexity t = ""));
    destruct (decide (complexity t ∉ VALID_COMPLEXITIES));
    destruct (decide (files t = [] ∨ files t = [""]));
    repeat case_decide; try tauto;
    rewrite ?check_preconditions_eq; simpl;
    rewrite ?app_nil_r, <- ?app_assoc; simpl; done.
Qed.

Lemma check_tasks_eq order task_nums tasks : ∀ issues warnings,
  fold_left (check_task order task_nums) tasks (issues, warnings)
  = (issues ++ (tasks ≫= task_issues task_nums),
     warnings ++ (tasks ≫= task_warnings order)).
Proof.
  induction tasks as [|t ts IH]; intros issues warnings.
  - simpl. by rewrite !app_nil_r.
  - change (fold_left (check_task order task_nums) ts
              (check_task order task_nums (issues, warnings) t) = 
            (issues ++ ((t :: ts) ≫= task_issues task_nums),
             warnings ++ ((t :: ts) ≫= task_warnings order))).
    rewrite check_task_eq, IH, !bind_cons. by rewrite <- !app_assoc.
Qed.

(** The result of validation, spelled out. *)
Lemma validate_tasks_eq order tasks :
  ∃ cs, detect_cycles tasks = Ok cs ∧ Forall closed_walk cs ∧
    let issues := (tasks ≫= task_issues (task_numbers tasks))
                    ++ map cycle_finding cs in
    let warnings := tasks ≫= task_warnings order in
    validate_tasks order tasks
    = Ok (mkResult (length tasks) (length issues) (length warnings)
            issues warnings (bool_decide (length issues = 0))).
Proof.
  destruct (detect_cycles_ok tasks) as (cs & Hcs & Hw & _).
  exists cs. split; [done|]. split; [done|]. simpl.
  unfold validate_tasks. rewrite check_tasks_eq. simpl.
  rewrite Hcs. simpl. rewrite report_cycles_ok by done. done.
Qed.

(** ** Rule names, severities and attribution of the findings *)

Lemma filter_none {A} (P : A → Prop) `{∀ x, Decision (P x)} (l : list A) :
  Forall (λ x, ¬ P x) l → filter P l = [].
Proof.
  induction 1 as [|x l Hx _ IH]; [done|].
  by rewrite filter_cons, decide_False.
Qed.

Lemma filter_all {A} (P : A → Prop) `{∀ x, Decision (P x)} (l : list A) :
  Forall P l → filter P l = l.
Proof.
  induction 1 as [|x l Hx _ IH]; [done|].
  by rewrite filter_cons, decide_True, IH.
Qed.

Lemma filter_bind {A B} (P : B → Prop) `{∀ x, Decision (P x)}
    (f : A → list B) (l : list A) :
  filter P (l ≫= f) = l ≫= (λ x, filter P (f x)).
Proof.
  induction l as [|x l IH]; [done|].
  by rewrite !bind_cons, filter_app, IH.
Qed.

Lemma Forall_bind {A B} (P : B → Prop) (f : A → list B) (l : list A) :
  (∀ x, Forall P (f x)) → Forall P (l ≫= f).
Proof.
  intros Hf. induction l as [|x l IH]; [constructor|].
  rewrite bind_cons. by apply Forall_app.
Qed.

(** A property of findings that holds of every finding the validator can
    build for a task: checked rule by rule. *)
Ltac rule_cases :=
  unfold rule_atomic_scope, rule_verifiable, rule_placeholder, rule_steps,
    rule_complexity, rule_nonstandard, rule_files, rule_preconditions;
  repeat case_decide; repeat case_match;
  repeat first [ apply Forall_nil_2 | apply Forall_cons_2 | apply Forall_fmap;
                 apply Forall_true; intros ? ];
  simpl; try done.

Lemma task_issues_shape task_nums t :
  Forall (λ f, task f = num t ∧ severity f = "error"
               ∧ rule f ∈ ["atomic_scope"; "verifiable"; "preconditions";
                           "complexity"])
         (task_issues task_nums t).
Proof.
  unfold task_issues. repeat apply Forall_app_2; rule_cases;
    (split; [done|split; [done|set_solver]]).
Qed.

Lemma task_warnings_shape order t :
  Forall (λ f, task f = num t ∧ severity f = "warning"
               ∧ rule f ∈ ["verifiable"; "steps"; "complexity"; "files"])
         (task_warnings order t).
Proof.
  unfold task_warnings. repeat apply Forall_app_2; rule_cases;
    (split; [done|split; [done|set_solver]]).
Qed.

Lemma cycle_findings_shape cs :
  Forall (λ f, severity f = "error" ∧ rule f = "acyclic") (map cycle_finding cs).
Proof. apply Forall_fmap, Forall_true. done. Qed.

Lemma filter_rule_issues r task_nums t :
  filter (has_rule r) (task_issues task_nums t)
  = filter (has_rule r) (rule_atomic_scope t)
    ++ filter (has_rule r) (rule_verifiable t)
    ++ filter (has_rule r) (rule_preconditions task_nums t)
    ++ filter (has_rule r) (rule_complexity t).
Proof. unfold task_issues. by rewrite !filter_app. Qed.

(** ** Counts, verdict and exhaustiveness *)

(** C6: the result's [errors] is the length of [issues], [warnings] the length
    of [warnings_list], and [passed] says [errors = 0]; the error count is the
    number of per-task error findings plus one per detected cycle; every
    member of [issues] has severity error and every member of
    [warnings_list] severity warning, so [passed] holds exactly when no
    finding at all has severity error. *)
Theorem C6_counts_and_verdict (order : list string) (tasks : list Task) :
  ∃ r cs,
    validate_tasks order tasks = Ok r ∧ detect_cycles tasks = Ok cs ∧
    errors r = length (issues r) ∧
    warnings r = length (warnings_list r) ∧
    passed r = bool_decide (errors r = 0) ∧
    errors r = length (tasks ≫= task_issues (task_numbers tasks)) + length cs ∧
    Forall (λ f, severity f = "error") (issues r) ∧
    Forall (λ f, severity f = "warning") (warnings_list r) ∧
    (passed r = true ↔
       ∀ f, f ∈ issues r ++ warnings_list r → severity f ≠ "error").
Proof.
  destruct (validate_tasks_eq order tasks) as (cs & Hcs & _ & Hr).
  simpl in Hr. eexists _, cs. split; [exact Hr|]. split; [done|]. simpl.
  assert (Forall (λ f, severity f = "error")
            ((tasks ≫= task_issues (task_numbers tasks))
               ++ map cycle_finding cs)) as Herr.
  { apply Forall_app_2.
    - apply Forall_bind. intros t.
      eapply Forall_impl; [apply task_issues_shape|]. by intros f (_ & ? & _).
    - eapply Forall_impl; [apply cycle_findings_shape|]. by intros f [? _]. }
  assert (Forall (λ f, severity f = "warning") (tasks ≫= task_warnings order))
    as Hwarn.
  { apply Forall_bind. intros t.
    eapply Forall_impl; [apply task_warnings_shape|]. by intros f (_ & ? & _). }
  split; [done|]. split; [done|]. split; [done|].
  split; [by rewrite length_app, length_map|].
  split; [done|]. split; [done|].
  rewrite bool_decide_eq_true, length_zero_iff_nil. split.
  - intros -> f. simpl. intros Hf Hsev.
    rewrite Forall_forall in Hwarn. specialize (Hwarn f Hf). congruence.
  - intros Hnone. destruct (_ ++ map cycle_finding cs) as [|f l] eqn:E; [done|].
    exfalso. apply (Hnone f); [left|]. by apply Forall_cons in Herr as [? _].
Qed.

(** C5: for every task list the validator returns a result (no exception, and
    the search never exhausts its recursion depth), and the result holds
    every finding of every rule on every task: [issues] is, task after task,
    the findings of the four error rules in rule order, followed by one
    finding per detected cycle, and [warnings_list] is, task after task, the
    findings of the four warning rules.  Each rule's findings depend on the
    task alone, not on what other rules found. *)
Theorem C5_returns_all_findings (order : list string) (tasks : list Task) :
  ∃ r cs,
    validate_tasks order tasks = Ok r ∧ detect_cycles tasks = Ok cs ∧
    total_tasks r = length tasks ∧
    issues r =
      (tasks ≫= λ t, rule_atomic_scope t ++ rule_verifiable t
                       ++ rule_preconditions (task_numbers tasks) t
                       ++ rule_complexity t)
      ++ map cycle_finding cs ∧
    warnings_list r =
      (tasks ≫= λ t, rule_placeholder t ++ rule_steps t
                       ++ rule_nonstandard order t ++ rule_files t) ∧
    ∀ t, t ∈ tasks →
      (∀ f, f ∈ rule_atomic_scope t ∨ f ∈ rule_verifiable t
            ∨ f ∈ rule_preconditions (task_numbers tasks) t
            ∨ f ∈ rule_complexity t → f ∈ issues r) ∧
      (∀ f, f ∈ rule_placeholder t ∨ f ∈ rule_steps t
            ∨ f ∈ rule_nonstandard order t ∨ f ∈ rule_files t →
            f ∈ warnings_list r).
Proof.
  destruct (validate_tasks_eq order tasks) as (cs & Hcs & _ & Hr).
  simpl in Hr. eexists _, cs. split; [exact Hr|]. split; [done|]. simpl.
  split; [done|]. split; [done|]. split; [done|].
  intros t Ht. split; intros f Hf.
  - apply elem_of_app. left. apply list_elem_of_bind. exists t.
    split; [|done]. unfold task_issues. rewrite !elem_of_app. tauto.
  - apply list_elem_of_bind. exists t.
    split; [|done]. unfold task_warnings. rewrite !elem_of_app. tauto.
Qed.

(** ** The atomic-scope rule *)

Lemma bind_if_filter {A B} (P : A → Prop) `{∀ x, Decision (P x)}
    (f : A → B) (l : list A) :
  (l ≫= λ x, if decide (P x) then [f x] else []) = f <$> filter P l.
Proof.
  induction l as [|x l IH]; [done|].
  rewrite bind_cons, filter_cons, IH. by destruct (decide (P x)).
Qed.

Lemma bind_pointwise {A B} (f g : A → list B) (l : list A) :
  (∀ x, f x = g x) → l ≫= f = l ≫= g.
Proof.
  intros Hfg. induction l as [|x l IH]; [done|].
  by rewrite !bind_cons, Hfg, IH.
Qed.

Lemma bind_const_nil {A B} (l : list A) : l ≫= (λ _, @nil B) = [].
Proof. induction l as [|x l IH]; [done|]. by rewrite bind_cons, IH. Qed.

Lemma filter_atomic_issues task_nums t :
  filter (has_rule "atomic_scope") (task_issues task_nums t)
  = rule_atomic_scope t.
Proof.
  rewrite filter_rule_issues.
  rewrite (filter_all _ (rule_atomic_scope t)) by rule_cases.
  rewrite (filter_none _ (rule_verifiable t)) by rule_cases.
  rewrite (filter_none _ (rule_preconditions task_nums t)) by rule_cases.
  rewrite (filter_none _ (rule_complexity t)) by rule_cases.
  by rewrite !app_nil_r.
Qed.

Lemma filter_atomic_warnings order t :
  filter (has_rule "atomic_scope") (task_warnings order t) = [].
Proof.
  apply filter_none.
  eapply Forall_impl; [apply task_warnings_shape|].
  intros f (_ & _ & Hr) Hf. unfold has_rule in Hf. rewrite Hf in Hr.
  set_solver.
Qed.

Lemma parse_task_plan_file_count ms :
  filter (λ t, 3 < file_count t) (parse_task_plan ms)
  = filter (λ t, 3 < length (files t)) (parse_task_plan ms).
Proof.
  induction ms as [|m ms IH]; [done|].
  unfold parse_task_plan in *. simpl map. rewrite !filter_cons, IH. done.
Qed.

Lemma no_edges_no_cycles tasks :
  Forall (λ t, preconditions t = []) tasks → detect_cycles tasks = Ok [].
Proof.
  intros Hnone.
  destruct (detect_cycles_ok tasks) as (cs & Hcs & _ & Hrank).
  rewrite Hcs, (Hrank (λ _, 0%Z)); [done|].
  intros v d (t & Ht & _ & Hd)%build_graph_get.
  rewrite Forall_forall in Hnone. rewrite (Hnone t Ht) in Hd.
  by apply elem_of_nil in Hd.
Qed.

(** C7: on the tasks parsed from any list of blocks, the [atomic_scope]
    findings among the errors are exactly one per task with more than three
    files, in task order, each attributed to its task with severity error, and
    no warning carries that rule.  The block with files
    "a.py, b.py, c.py, d.py", done-when "tests pass", complexity "small",
    preconditions "none" and no steps validates to one error ([atomic_scope]),
    one warning (the missing steps) and [passed = false]. *)
Theorem C7_atomic_scope (order : list string) :
  (∀ ms : list BlockMatch,
     ∃ r, validate_tasks order (parse_task_plan ms) = Ok r ∧
          filter (has_rule "atomic_scope") (issues r)
          = atomic_scope_issue
              <$> filter (λ t, 3 < length (files t)) (parse_task_plan ms) ∧
          filter (has_rule "atomic_scope") (warnings_list r) = [] ∧
          ∀ t, task (atomic_scope_issue t) = num t
               ∧ severity (atomic_scope_issue t) = "error") ∧
  (∀ (n : Z) (heading : string),
     validate_tasks order
       [parse_task (mkBlock n heading (Some "a.py, b.py, c.py, d.py")
                      (Some "none") (Some "tests pass") (Some "small")
                      None false)]
     = Ok (mkResult 1 1 1
             [mkFinding n "atomic_scope" "error"
                ("Task " +:+ pretty n
                   +:+ ": Touches 4 files (max 3). Split this task.")]
             [mkFinding n "steps" "warning"
                ("Task " +:+ pretty n
                   +:+ ": No steps found. Add concrete action steps.")]
             false)).
Proof.
  split.
  - intros ms.
    destruct (validate_tasks_eq order (parse_task_plan ms)) as (cs & Hcs & _ & Hr).
    simpl in Hr. eexists. split; [exact Hr|]. simpl. split; [|split; [|done]].
    + rewrite filter_app, filter_bind.
      rewrite (filter_none _ (map cycle_finding cs)).
      2:{ eapply Forall_impl; [apply cycle_findings_shape|].
          intros f [_ Hf]. unfold has_rule. by rewrite Hf. }
      rewrite app_nil_r, <- parse_task_plan_file_count.
      rewrite <- (bind_if_filter (λ t, 3 < file_count t) atomic_scope_issue).
      apply bind_pointwise. intros t. apply filter_atomic_issues.
    + rewrite filter_bind.
      rewrite (bind_pointwise _ (λ _, [])) by apply filter_atomic_warnings.
      apply bind_const_nil.
  - intros n heading.
    set (t := parse_task _).
    destruct (validate_tasks_eq order [t]) as (cs & Hcs & _ & Hr).
    rewrite no_edges_no_cycles in Hcs by (by repeat constructor).
    injection Hcs as <-. simpl in Hr. rewrite Hr. done.
Qed.

(** ** Cycle detection on particular graphs *)

Lemma record_cycle_slice neighbor st st' :
  record_cycle neighbor st = Ok st' →
  ∃ i, path st !! i = Some neighbor ∧
       (∀ j, j < i → path st !! j ≠ Some neighbor) ∧
       cycles st' = cycles st ++ [drop i (path st) ++ [neighbor]].
Proof.
  unfold record_cycle, py_index.
  destruct (list_find (λ y, y = neighbor) (path st)) as [[i y]|] eqn:Hf;
    simpl; [|done].
  apply list_find_Some in Hf as (Hi & Hy & Hfirst). subst y.
  intros Heq. injection Heq as <-. exists i. split; [done|]. split; [|done].
  intros j Hj Hpj. by apply (Hfirst j neighbor).
Qed.

Lemma visit_fresh rec d ns st :
  d ∉ visited st →
  visit_neighbors rec (d :: ns) st = rec d st ≫= visit_neighbors rec ns.
Proof. intros Hd. simpl. by rewrite decide_True. Qed.

Lemma visit_on_stack rec d ns st :
  d ∈ visited st → d ∈ rec_stack st →
  visit_neighbors rec (d :: ns) st
  = record_cycle d st ≫= visit_neighbors rec ns.
Proof.
  intros Hd Hr. simpl. rewrite decide_False by (by intros ?).
  by rewrite decide_True.
Qed.

Lemma visit_finished rec d ns st :
  d ∈ visited st → d ∉ rec_stack st →
  visit_neighbors rec (d :: ns) st = visit_neighbors rec ns st.
Proof.
  intros Hd Hr. simpl. rewrite decide_False by (by intros ?).
  by rewrite decide_False.
Qed.

Lemma visit_all_on_stack rec (a : Z) rest ns st :
  Forall (λ d, d = a) ns →
  a ∈ visited st → a ∈ rec_stack st → path st = a :: rest →
  visit_neighbors rec ns st
  = Ok (mkDfs (visited st) (rec_stack st) (path st)
          (cycles st ++ map (λ _, a :: rest ++ [a]) ns) (calls st)).
Proof.
  intros Hns. revert st.
  induction Hns as [|d ns -> _ IH]; intros st Hv Hr Hp.
  - simpl. rewrite app_nil_r. by destruct st.
  - rewrite visit_on_stack by done.
    assert (record_cycle a st
            = Ok (mkDfs (visited st) (rec_stack st) (path st)
                    (cycles st ++ [a :: rest ++ [a]]) (calls st))) as ->.
    { unfold record_cycle, py_index. rewrite Hp. simpl.
      by rewrite decide_True. }
    change (Ok ?s ≫= visit_neighbors rec ns) with (visit_neighbors rec ns s).
    rewrite IH by done. simpl. by rewrite <- app_assoc.
Qed.

Lemma visit_all_finished rec (b : Z) ns st :
  Forall (λ d, d = b) ns →
  b ∈ visited st → b ∉ rec_stack st →
  visit_neighbors rec ns st = Ok st.
Proof.
  intros Hns Hv Hr. induction Hns as [|d ns -> _ IH]; [done|].
  by rewrite visit_finished.
Qed.

(** The search on a graph whose only edges are [a -> b] and [b -> a], each
    written once or more, roots in the order [a], [b]: one cycle is recorded
    for every entry of the list stored under [b]. *)
Lemma two_cycle_search (a b : Z) (da db : list Z) :
  a ≠ b →
  da ≠ [] → Forall (λ d, d = b) da → Forall (λ d, d = a) db →
  ∃ st, visit_roots 2 [(a, da); (b, db)] [a; b] dfs_init = Ok st ∧
        cycles st = map (λ _, [a; b; a]) db ∧ calls st = 2.
Proof.
  intros Hab Hda Hfa Hfb. set (g := [(a, da); (b, db)]).
  destruct da as [|d da']; [done|]. clear Hda.
  apply Forall_cons in Hfa as [-> Hfa].
  assert (dict_get g a = b :: da') as Ha by (simpl; by rewrite decide_True).
  assert (dict_get g b = db) as Hb.
  { simpl. rewrite decide_False by done. by rewrite decide_True. }
  set (cs := map (λ _ : Z, [a; b; a]) db).
  set (s1 := enter a dfs_init). set (s2 := enter b s1).
  set (s4 := mkDfs (visited s2) (rec_stack s2 ∖ {[b]}) [a] cs 2).
  set (s5 := mkDfs (visited s2) ((rec_stack s2 ∖ {[b]}) ∖ {[a]}) [] cs 2).
  assert (dfs 1 g b s1 = Ok s4) as H4.
  { change (dfs 1 g b s1)
      with (visit_neighbors (dfs 0 g) (dict_get g b) s2 ≫= leave b).
    rewrite Hb, (visit_all_on_stack _ a [b]) by (done || simpl; set_solver).
    done. }
  assert (dfs 2 g a dfs_init = Ok s5) as H5.
  { change (dfs 2 g a dfs_init)
      with (visit_neighbors (dfs 1 g) (dict_get g a) s1 ≫= leave a).
    rewrite Ha, visit_fresh, H4 by (simpl; set_solver).
    change (Ok s4 ≫= visit_neighbors (dfs 1 g) da')
      with (visit_neighbors (dfs 1 g) da' s4).
    rewrite (visit_all_finished _ b) by (done || simpl; set_solver). done. }
  exists s5. split; [|done].
  change (visit_roots 2 g [a; b] dfs_init)
    with ((if decide (a ∉ visited dfs_init) then dfs 2 g a dfs_init
           else Ok dfs_init) ≫= visit_roots 2 g [b]).
  rewrite decide_True by (simpl; set_solver). rewrite H5.
  change (Ok s5 ≫= visit_roots 2 g [b]) with (visit_roots 2 g [b] s5).
  simpl. rewrite decide_False; [done|]. intros Hn. apply Hn. set_solver.
Qed.

Lemma two_cycle_detected (t1 t2 : Task) :
  num t1 ≠ num t2 →
  preconditions t1 ≠ [] →
  Forall (λ d, d = num t2) (preconditions t1) →
  Forall (λ d, d = num t1) (preconditions t2) →
  detect_cycles [t1; t2]
  = Ok (map (λ _, [num t1; num t2; num t1]) (preconditions t2)).
Proof.
  intros Hne Hd1 H1 H2.
  destruct (two_cycle_search (num t1) (num t2) _ _ Hne Hd1 H1 H2)
    as (st & Hst & Hc & _).
  assert (build_graph [t1; t2]
          = [(num t1, preconditions t1); (num t2, preconditions t2)]) as Hg.
  { unfold build_graph. simpl. by rewrite decide_False. }
  unfold detect_cycles, run_dfs, enough_fuel. rewrite Hg.
  set (g := [(num t1, preconditions t1); (num t2, preconditions t2)]) in *.
  assert (2 ≤ S (length (graph_nodes g))) as Hfuel.
  { unfold graph_nodes. rewrite length_app. simpl. lia. }
  change (dict_keys g) with [num t1; num t2].
  rewrite (visit_roots_mono _ _ _ _ Hfuel _ _ Hst).
  simpl. by rewrite Hc.
Qed.

Lemma filter_acyclic_issues task_nums tasks cs :
  filter (has_rule "acyclic")
    ((tasks ≫= task_issues task_nums) ++ map cycle_finding cs)
  = map cycle_finding cs.
Proof.
  rewrite filter_app, filter_bind.
  rewrite (bind_pointwise _ (λ _, [])), bind_const_nil.
  - apply filter_all. eapply Forall_impl; [apply cycle_findings_shape|].
    by intros f [_ ?].
  - intros t. apply filter_none.
    eapply Forall_impl; [apply task_issues_shape|].
    intros f (_ & _ & Hr) Hf. unfold has_rule in Hf. rewrite Hf in Hr.
    set_solver.
Qed.

Lemma filter_acyclic_warnings order tasks :
  filter (has_rule "acyclic") (tasks ≫= task_warnings order) = [].
Proof.
  rewrite filter_bind, (bind_pointwise _ (λ _, [])), bind_const_nil; [done|].
  intros t. apply filter_none.
  eapply Forall_impl; [apply task_warnings_shape|].
  intros f (_ & _ & Hr) Hf. unfold has_rule in Hf. rewrite Hf in Hr.
  set_solver.
Qed.

(** C1, as stated, fails: Task 1 names Task 2, and Task 2 names Task 1 twice
    in its Preconditions field.  The dependency graph is the direct 2-cycle,
    and the validator reports two [acyclic] errors, not one. *)
Lemma C1_repeated_reference_two_errors :
  ¬ (∀ order t1 t2 r,
       num t1 ≠ num t2 →
       (∀ d, d ∈ preconditions t1 ↔ d = num t2) →
       (∀ d, d ∈ preconditions t2 ↔ d = num t1) →
       validate_tasks order [t1; t2] = Ok r →
       length (filter (has_rule "acyclic") (issues r)) = 1).
Proof.
  intros Hclaim.
  set (t1 := parse_task (mkBlock 1 "Model" (Some "a.py") (Some "Task 2")
                           (Some "pytest") (Some "small") None true)).
  set (t2 := parse_task (mkBlock 2 "Schema" (Some "b.py")
                           (Some "Task 1, Task 1")
                           (Some "pytest") (Some "small") None true)).
  assert (preconditions t1 = [2%Z]) as H1 by (vm_compute; reflexivity).
  assert (preconditions t2 = [1%Z; 1%Z]) as H2 by (vm_compute; reflexivity).
  assert (∃ r, validate_tasks std_order [t1; t2] = Ok r ∧
               length (filter (has_rule "acyclic") (issues r)) = 2)
    as (r & Hr & Hlen).
  { eexists. split; [vm_compute; reflexivity|]. vm_compute. reflexivity. }
  specialize (Hclaim std_order t1 t2 r).
  rewrite Hclaim in Hlen; [done|done| | |done].
  - intros d. rewrite H1. change (num t2) with 2%Z. set_solver.
  - intros d. rewrite H2. change (num t1) with 1%Z. set_solver.
Qed.

(** C1: two tasks with different numbers whose dependency graph is the direct
    2-cycle: the first task in the document names the second and no other,
    the second names the first and no other, each once or more.  The search records the cycle
    [a; b; a] once for every entry of the second task's precondition list,
    and the validator reports each as one [acyclic] error attributed to the
    first task, whose message lists Task a, Task b, Task a; so there is
    exactly one such error exactly when the second task names the first
    once.  No warning carries that rule.  Whenever a cycle is recorded, it is
    the slice of [path] from the first occurrence of the repeated node to the
    end of the path, followed by the repeated node. *)
Theorem C1_one_error_per_back_reference
    (order : list string) (t1 t2 : Task) :
  num t1 ≠ num t2 →
  (∀ d, d ∈ preconditions t1 ↔ d = num t2) →
  (∀ d, d ∈ preconditions t2 ↔ d = num t1) →
  detect_cycles [t1; t2]
  = Ok (map (λ _, [num t1; num t2; num t1]) (preconditions t2)) ∧
  (∃ r, validate_tasks order [t1; t2] = Ok r ∧
        filter (has_rule "acyclic") (issues r)
        = map (λ _, mkFinding (num t1) "acyclic" "error"
                      ("Circular dependency detected: Task " +:+ pretty (num t1)
                         +:+ " -> Task " +:+ pretty (num t2)
                         +:+ " -> Task " +:+ pretty (num t1)))
              (preconditions t2) ∧
        (length (filter (has_rule "acyclic") (issues r)) = 1
         ↔ preconditions t2 = [num t1]) ∧
        filter (has_rule "acyclic") (warnings_list r) = []) ∧
  (∀ neighbor st st',
     record_cycle neighbor st = Ok st' →
     ∃ i, path st !! i = Some neighbor ∧
          (∀ j, j < i → path st !! j ≠ Some neighbor) ∧
          cycles st' = cycles st ++ [drop i (path st) ++ [neighbor]]).
Proof.
  intros Hne Hi1 Hi2.
  assert (preconditions t1 ≠ []) as Hd1.
  { intros Hnil. rewrite Hnil in Hi1. by eapply not_elem_of_nil, Hi1. }
  assert (preconditions t2 ≠ []) as Hd2.
  { intros Hnil. rewrite Hnil in Hi2. by eapply not_elem_of_nil, Hi2. }
  assert (Forall (λ d, d = num t2) (preconditions t1)) as H1.
  { apply Forall_forall. intros d. apply Hi1. }
  assert (Forall (λ d, d = num t1) (preconditions t2)) as H2.
  { apply Forall_forall. intros d. apply Hi2. }
  clear Hi1 Hi2.
  pose proof (two_cycle_detected t1 t2 Hne Hd1 H1 H2) as Hdet.
  split; [done|]. split; [|apply record_cycle_slice].
  destruct (validate_tasks_eq order [t1; t2]) as (cs & Hcs & _ & Hr).
  rewrite Hdet in Hcs. injection Hcs as <-.
  eexists. split; [exact Hr|]. cbn [issues warnings_list].
  rewrite filter_acyclic_issues, filter_acyclic_warnings, map_map.
  split; [done|]. split; [|done].
  rewrite length_map. destruct H2 as [|d ds -> H2]; [done|].
  destruct H2 as [|d' ds' -> H2]; simpl; [done|]. split; [lia|done].
Qed.

(** The plan of the spec: Task 1 depends on Task 2, Task 2 on Task 1. *)
Lemma C1_one_error_per_back_reference_witness :
  detect_cycles [plain_task 1 [2%Z]; plain_task 2 [1%Z]]
  = Ok [[1%Z; 2%Z; 1%Z]].
Proof.
  apply (C1_one_error_per_back_reference std_order
           (plain_task 1 [2%Z]) (plain_task 2 [1%Z]));
    [discriminate|intros d; apply list_elem_of_singleton..].
Defined.

(** ** Acyclic plans *)

Lemma ranked_plan_no_cycles (rank : Z → Z) tasks :
  (∀ t d, t ∈ tasks → d ∈ preconditions t → (rank d < rank (num t))%Z) →
  detect_cycles tasks = Ok [].
Proof.
  intros Hrank.
  destruct (detect_cycles_ok tasks) as (cs & Hcs & _ & Hnone).
  rewrite Hcs, (Hnone rank); [done|].
  intros v d (t & Ht & <- & Hd)%build_graph_get. by apply Hrank.
Qed.

Lemma position_nonneg n ns : (0 ≤ position n ns)%Z.
Proof. induction ns as [|m ns IH]; simpl; [done|]. case_decide; lia. Qed.

Lemma chain_from_dep prev l t d :
  chain_from prev l → t ∈ l → d ∈ preconditions t → d ∈ prev :: map num l.
Proof.
  revert prev. induction l as [|t1 l IH]; intros prev Hch Ht Hd.
  - by apply elem_of_nil in Ht.
  - destruct Hch as [Hp Hch]. apply elem_of_cons in Ht as [->|Ht].
    + rewrite Hp in Hd. apply list_elem_of_singleton in Hd as ->. left.
    + right. by apply (IH (num t1)).
Qed.

Lemma chain_from_rank l : ∀ prev t d,
  chain_from prev l → NoDup (prev :: map num l) →
  t ∈ l → d ∈ preconditions t →
  (position d (prev :: map num l) < position (num t) (prev :: map num l))%Z.
Proof.
  induction l as [|t1 l IH]; intros prev t d Hch Hnd Ht Hd.
  - by apply elem_of_nil in Ht.
  - destruct Hch as [Hp Hch].
    apply NoDup_cons in Hnd as [Hprev Hnd]. simpl map in *.
    apply elem_of_cons in Ht as [->|Ht].
    + rewrite Hp in Hd. apply list_elem_of_singleton in Hd as ->.
      change (position ?x (prev :: ?r))
        with (if decide (prev = x) then 0%Z else (1 + position x r)%Z).
      rewrite decide_True by done.
      rewrite decide_False by (intros Heq; apply Hprev; rewrite Heq; left).
      pose proof (position_nonneg (num t1) (num t1 :: map num l)). lia.
    + pose proof (IH (num t1) t d Hch Hnd Ht Hd) as Hlt.
      pose proof (chain_from_dep _ _ _ _ Hch Ht Hd) as Hdin.
      assert (num t ∈ num t1 :: map num l) as Htin.
      { right. apply list_elem_of_fmap. by exists t. }
      change (position ?x (prev :: ?r))
        with (if decide (prev = x) then 0%Z else (1 + position x r)%Z).
      rewrite !decide_False by (intros ->; by apply Hprev). lia.
Qed.

Lemma linear_chain_rank chain t d :
  linear_chain chain → t ∈ chain → d ∈ preconditions t →
  (position d (map num chain) < position (num t) (map num chain))%Z.
Proof.
  intros [Hnd Hch] Ht Hd. destruct chain as [|t0 l].
  - by apply elem_of_nil in Ht.
  - destruct Hch as [H0 Hch]. apply elem_of_cons in Ht as [->|Ht].
    + rewrite H0 in Hd. by apply elem_of_nil in Hd.
    + by apply chain_from_rank.
Qed.

(** C2: a plan whose tasks, in whatever order the document lists them, form
    a linear chain (the first task of the chain has no precondition, every
    later one has exactly its predecessor) yields no cycle: the search
    returns the empty list and the result holds no [acyclic] finding. *)
Theorem C2_linear_chain_no_cycle (order : list string) (chain tasks : list Task) :
  linear_chain chain →
  tasks ≡ₚ chain →
  detect_cycles tasks = Ok [] ∧
  ∃ r, validate_tasks order tasks = Ok r ∧
       filter (has_rule "acyclic") (issues r) = [] ∧
       filter (has_rule "acyclic") (warnings_list r) = [].
Proof.
  intros Hchain Hperm.
  assert (detect_cycles tasks = Ok []) as Hdet.
  { apply (ranked_plan_no_cycles (λ n, position n (map num chain))).
    intros t d Ht Hd. apply linear_chain_rank; [done| |done].
    by rewrite <- Hperm. }
  split; [done|].
  destruct (validate_tasks_eq order tasks) as (cs & Hcs & _ & Hr).
  rewrite Hdet in Hcs. injection Hcs as <-.
  eexists. split; [exact Hr|]. cbn [issues warnings_list].
  by rewrite filter_acyclic_issues, filter_acyclic_warnings.
Qed.

(** The plan of the spec: Task 1 alone, Task 2 on Task 1, Task 3 on Task 2. *)
Lemma C2_linear_chain_no_cycle_witness :
  detect_cycles [plain_task 1 []; plain_task 2 [1%Z]; plain_task 3 [2%Z]]
  = Ok [].
Proof.
  apply (C2_linear_chain_no_cycle std_order
           [plain_task 1 []; plain_task 2 [1%Z]; plain_task 3 [2%Z]]
           [plain_task 1 []; plain_task 2 [1%Z]; plain_task 3 [2%Z]]).
  - split; [|simpl; tauto].
    simpl. repeat (apply NoDup_cons_2; [set_solver|]). apply NoDup_nil_2.
  - reflexivity.
Defined.

(** ** The number of activations *)

(** C10, as stated, fails: one task whose preconditions name three numbers
    that are no task's number makes [dfs] run four times, once per number,
    while the plan has a single task number. *)
Lemma C10_calls_exceed_task_numbers :
  ¬ (∀ tasks fuel st,
       run_dfs fuel tasks = Ok st → calls st ≤ size (task_numbers tasks)).
Proof.
  intros Hclaim.
  specialize (Hclaim [plain_task 1 [5%Z; 6%Z; 7%Z]] 5 _ eq_refl).
  vm_compute in Hclaim. lia.
Qed.

(** C10: the search returns for every task list, at any recursion depth that
    covers the numbers the plan mentions; [dfs] runs once for each node it
    visits and never twice on one, the visited nodes are the task numbers and
    the numbers their preconditions reference, so the number of activations
    is at most the number of distinct numbers mentioned in the plan. *)
Theorem C10_search_terminates (tasks : list Task) (fuel : nat) :
  size (plan_numbers tasks) ≤ fuel →
  ∃ st, run_dfs fuel tasks = Ok st ∧
        detect_cycles tasks = Ok (cycles st) ∧
        calls st = size (visited st) ∧
        task_numbers tasks ⊆ visited st ∧
        visited st ⊆ plan_numbers tasks ∧
        calls st ≤ size (plan_numbers tasks).
Proof.
  intros Hfuel.
  pose proof (subseteq_size _ _ (universe_plan_numbers tasks)) as Hsz.
  destruct (run_dfs_ok tasks fuel) as (st & Hst & Hv & Hc & _); [lia|].
  exists st. split; [done|]. split.
  { unfold detect_cycles.
    rewrite <- (run_dfs_fuel_irrelevant tasks fuel), Hst by lia. done. }
  split; [by rewrite Hv|]. split.
  { rewrite Hv. intros n Hn. apply dict_keys_universe, build_graph_keys.
    unfold task_numbers in Hn. by rewrite elem_of_list_to_set in Hn. }
  split; [rewrite Hv; apply universe_plan_numbers|lia].
Qed.

(** One task naming three absent tasks: four activations, at depth 4. *)
Lemma C10_search_terminates_witness :
  ∃ st, run_dfs 4 [plain_task 1 [5%Z; 6%Z; 7%Z]] = Ok st ∧ calls st = 4.
Proof.
  destruct (C10_search_terminates [plain_task 1 [5%Z; 6%Z; 7%Z]] 4)
    as (st & Hst & _).
  - vm_compute. lia.
  - exists st. split; [exact Hst|].
    vm_compute in Hst. injection Hst as <-. reflexivity.
Defined.

(** ** The precondition rule *)

Lemma filter_preconditions_issues task_nums t :
  filter (has_rule "preconditions") (task_issues task_nums t)
  = rule_preconditions task_nums t.
Proof.
  rewrite filter_rule_issues.
  rewrite (filter_none _ (rule_atomic_scope t)) by rule_cases.
  rewrite (filter_none _ (rule_verifiable t)) by rule_cases.
  rewrite (filter_all _ (rule_preconditions task_nums t)) by rule_cases.
  rewrite (filter_none _ (rule_complexity t)) by rule_cases.
  by rewrite !app_nil_r.
Qed.

Lemma filter_finding_of_own r task_nums t :
  filter (finding_of r (num t)) (task_issues task_nums t)
  = filter (has_rule r) (task_issues task_nums t).
Proof.
  pose proof (task_issues_shape task_nums t) as Hshape.
  induction Hshape as [|f l (Hf & _) _ IH]; [done|].
  rewrite !filter_cons, IH.
  destruct (decide (has_rule r f)) as [Hr|Hr].
  - by rewrite decide_True by done.
  - by rewrite decide_False by (by intros [? _]).
Qed.

Lemma filter_finding_of_other r n task_nums t :
  num t ≠ n → filter (finding_of r n) (task_issues task_nums t) = [].
Proof.
  intros Hne. apply filter_none.
  eapply Forall_impl; [apply task_issues_shape|].
  intros f (Hf & _) [_ Hn]. congruence.
Qed.

Lemma bind_all_nil {A B} (f : A → list B) (l : list A) :
  (∀ x, x ∈ l → f x = []) → l ≫= f = [].
Proof.
  intros Hf. induction l as [|x l IH]; [done|].
  rewrite bind_cons, Hf by left. simpl. apply IH. intros y Hy. apply Hf. by right.
Qed.

Lemma filter_finding_of_plan r task_nums tasks t :
  NoDup (map num tasks) → t ∈ tasks →
  filter (finding_of r (num t)) (tasks ≫= task_issues task_nums)
  = filter (has_rule r) (task_issues task_nums t).
Proof.
  intros Hnd Ht. rewrite filter_bind.
  induction tasks as [|x l IH]; [by apply elem_of_nil in Ht|].
  simpl map in Hnd. apply NoDup_cons in Hnd as [Hx Hnd].
  rewrite bind_cons. apply elem_of_cons in Ht as [->|Ht].
  - rewrite filter_finding_of_own, bind_all_nil, app_nil_r; [done|].
    intros y Hy. apply filter_finding_of_other. intros Heq. apply Hx.
    rewrite <- Heq. apply list_elem_of_fmap. by exists y.
  - rewrite filter_finding_of_other, IH; [done..|].
    intros Heq. apply Hx. rewrite Heq. apply list_elem_of_fmap. by exists t.
Qed.

Lemma precondition_errors_of order tasks t :
  NoDup (map num tasks) → t ∈ tasks →
  ∃ r, validate_tasks order tasks = Ok r ∧
       filter (finding_of "preconditions" (num t)) (issues r)
       = rule_preconditions (task_numbers tasks) t.
Proof.
  intros Hnd Ht.
  destruct (validate_tasks_eq order tasks) as (cs & Hcs & _ & Hr).
  eexists. split; [exact Hr|]. cbn [issues].
  rewrite filter_app, filter_finding_of_plan by done.
  rewrite filter_preconditions_issues.
  rewrite (filter_none _ (map cycle_finding cs)); [by rewrite app_nil_r|].
  eapply Forall_impl; [apply cycle_findings_shape|].
  intros f [_ Hf] [Hr' _]. by rewrite Hf in Hr'.
Qed.

(** C3, as stated, fails: a task whose preconditions field names the same
    absent task twice gets two [preconditions] errors, not one. *)
Lemma C3_two_findings_for_one_task :
  ¬ (∀ order tasks t r,
       t ∈ tasks →
       (∃ d, d ∈ preconditions t ∧ d ∉ task_numbers tasks) →
       validate_tasks order tasks = Ok r →
       length (filter (finding_of "preconditions" (num t)) (issues r)) = 1).
Proof.
  intros Hclaim.
  set (t := parse_task (mkBlock 1 "Build" (Some "a.py") (Some "Task 9, Task 9")
                          (Some "pytest") (Some "small") None true)).
  assert (∃ d, d ∈ preconditions t ∧ d ∉ task_numbers [t]) as Hd.
  { exists 9%Z. split; [vm_compute; left|]. vm_compute. set_solver. }
  assert (∃ r, validate_tasks std_order [t] = Ok r ∧
               length (filter (finding_of "preconditions" (num t)) (issues r)) = 2)
    as (r & Hr & Hlen).
  { eexists. split; [vm_compute; reflexivity|]. vm_compute. reflexivity. }
  assert (t ∈ [t]) as Ht by left.
  specialize (Hclaim std_order [t] t r Ht Hd Hr). congruence.
Qed.

(** C3: in a plan whose task numbers are all different, the [preconditions]
    errors attributed to a task are, in order, one for every entry of its
    precondition list that is no task's number, each naming that entry;
    so there is exactly one such error when exactly one entry dangles, and
    the other tasks of the plan play no part. *)
Theorem C3_one_error_per_dangling_entry
    (order : list string) (tasks : list Task) (t : Task) :
  NoDup (map num tasks) →
  t ∈ tasks →
  ∃ r, validate_tasks order tasks = Ok r ∧
       filter (finding_of "preconditions" (num t)) (issues r)
       = preconditions_issue t
           <$> filter (λ dep, dep ∉ task_numbers tasks) (preconditions t) ∧
       length (filter (finding_of "preconditions" (num t)) (issues r))
       = length (filter (λ dep, dep ∉ task_numbers tasks) (preconditions t)).
Proof.
  intros Hnd Ht.
  destruct (precondition_errors_of order tasks t Hnd Ht) as (r & Hr & Heq).
  exists r. split; [exact Hr|]. split; [exact Heq|].
  unfold rule_preconditions, dangling in Heq. by rewrite Heq, length_fmap.
Qed.

(** Task 1 names the absent Task 9 once; Task 2 names Task 1. *)
Lemma C3_one_error_per_dangling_entry_witness :
  ∃ r, validate_tasks std_order [plain_task 1 [9%Z]; plain_task 2 [1%Z]] = Ok r ∧
       length (filter (finding_of "preconditions" 1%Z) (issues r)) = 1.
Proof.
  destruct (C3_one_error_per_dangling_entry std_order
              [plain_task 1 [9%Z]; plain_task 2 [1%Z]] (plain_task 1 [9%Z]))
    as (r & Hr & _ & Hlen).
  - simpl. repeat (apply NoDup_cons_2; [set_solver|]). apply NoDup_nil_2.
  - left.
  - exists r. split; [exact Hr|]. etrans; [exact Hlen|]. reflexivity.
Defined.

(** ** Dependence on the iteration order of the complexity set *)

Lemma string_app_assoc (a b c : string) : (a +:+ b) +:+ c = a +:+ b +:+ c.
Proof.
  induction a as [|x a IH]; [done|].
  change (String x ((a +:+ b) +:+ c) = String x (a +:+ b +:+ c)).
  by rewrite IH.
Qed.

Lemma std_order_iterates : iteration_order VALID_COMPLEXITIES std_order.
Proof.
  split.
  - unfold std_order. repeat (apply NoDup_cons_2; [set_solver|]). apply NoDup_nil_2.
  - intros x. unfold std_order, VALID_COMPLEXITIES. set_solver.
Qed.

Lemma other_order_iterates : iteration_order VALID_COMPLEXITIES other_order.
Proof.
  split.
  - unfold other_order. repeat (apply NoDup_cons_2; [set_solver|]). apply NoDup_nil_2.
  - intros x. unfold other_order, VALID_COMPLEXITIES. set_solver.
Qed.

(** C9, as stated, fails: the text of the non-standard-complexity warning
    lists the labels in the iteration order of the set, and two iteration
    orders of the same set give two different results for the same tasks. *)
Lemma C9_result_depends_on_set_order :
  ¬ (∀ order1 order2 tasks,
       iteration_order VALID_COMPLEXITIES order1 →
       iteration_order VALID_COMPLEXITIES order2 →
       validate_tasks order1 tasks = validate_tasks order2 tasks).
Proof.
  intros Hclaim.
  specialize (Hclaim std_order other_order
                [mkTask 1 "t" ["a.py"] 1 [] "pytest" "huge" "" true]
                std_order_iterates other_order_iterates).
  vm_compute in Hclaim. discriminate.
Qed.

(** How far two warnings may differ when only the iteration order differs. *)
Lemma task_warnings_orders order1 order2 t :
  Forall2 (λ w1 w2,
             w1 = w2 ∨
             ∃ u, w1 = complexity_warning order1 u
                  ∧ w2 = complexity_warning order2 u)
          (task_warnings order1 t) (task_warnings order2 t).
Proof.
  unfold task_warnings. repeat apply Forall2_app.
  - apply Forall_Forall2_diag, Forall_true. intros w. by left.
  - apply Forall_Forall2_diag, Forall_true. intros w. by left.
  - unfold rule_nonstandard. case_decide; [|constructor].
    constructor; [|constructor]. right. by exists t.
  - apply Forall_Forall2_diag, Forall_true. intros w. by left.
Qed.

(** C9: validation is a function of the task list and of the order in which
    the interpreter iterates the complexity set.  With the same order two
    runs give the same result.  With two different orders everything still
    agrees (counts, verdict, the errors with their order and texts, the
    warnings with their order, tasks, rules and severities) except the text
    of non-standard-complexity warnings, which ends with the labels joined
    in the iteration order. *)
Theorem C9_deterministic_up_to_set_order
    (order1 order2 : list string) (tasks : list Task) :
  ∃ r1 r2,
    validate_tasks order1 tasks = Ok r1 ∧
    validate_tasks order2 tasks = Ok r2 ∧
    (order1 = order2 → r1 = r2) ∧
    total_tasks r1 = total_tasks r2 ∧ errors r1 = errors r2 ∧
    warnings r1 = warnings r2 ∧ passed r1 = passed r2 ∧
    issues r1 = issues r2 ∧
    Forall2
      (λ w1 w2,
         task w1 = task w2 ∧ rule w1 = rule w2 ∧ severity w1 = severity w2 ∧
         (message w1 = message w2 ∨
          ∃ stem, rule w1 = "complexity" ∧
                  message w1 = stem +:+ PyStr.join ", " order1 ∧
                  message w2 = stem +:+ PyStr.join ", " order2))
      (warnings_list r1) (warnings_list r2).
Proof.
  destruct (validate_tasks_eq order1 tasks) as (cs1 & Hcs1 & _ & Hr1).
  destruct (validate_tasks_eq order2 tasks) as (cs2 & Hcs2 & _ & Hr2).
  rewrite Hcs1 in Hcs2. injection Hcs2 as <-.
  eexists _, _. split; [exact Hr1|]. split; [exact Hr2|].
  assert (Forall2 (λ w1 w2,
             w1 = w2 ∨
             ∃ u, w1 = complexity_warning order1 u
                  ∧ w2 = complexity_warning order2 u)
            (tasks ≫= task_warnings order1) (tasks ≫= task_warnings order2))
    as Hws.
  { clear. induction tasks as [|t ts IH]; [constructor|].
    rewrite !bind_cons. apply Forall2_app; [apply task_warnings_orders|].
    apply IH. }
  split; [by intros ->|]. cbn.
  split; [done|]. split; [done|].
  split; [by rewrite (Forall2_length _ _ _ Hws)|].
  split; [done|]. split; [done|].
  eapply Forall2_impl; [exact Hws|].
  intros w1 w2 [->|(u & -> & ->)]; [by auto|].
  repeat (split; [done|]). right.
  exists (task_prefix (num u) +:+ ": Complexity '" +:+ complexity u
            +:+ "' not standard. Use: ").
  split; [done|]. unfold complexity_warning. cbn [message].
  by rewrite !string_app_assoc.
Qed.

(** ** [strip], [split] and [join] *)

Lemma app_cons (c : ascii) (a b : string) :
  String c a +:+ b = String c (a +:+ b).
Proof. reflexivity. Qed.

Lemma lstrip_with_spec p s :
  ∃ a, s = a +:+ PyStr.lstrip_with p s ∧ all_chars p a = true
       ∧ ∀ c, first_char (PyStr.lstrip_with p s) = Some c → p c = false.
Proof.
  induction s as [|c s (a & Hs & Ha & Hf)].
  - exists "". by repeat split.
  - simpl PyStr.lstrip_with. destruct (p c) eqn:Hc.
    + exists (String c a). rewrite app_cons, <- Hs. simpl. rewrite Hc, Ha.
      by repeat split.
    + exists "". repeat split. simpl. by intros ? [= <-].
Qed.

Lemma rstrip_with_spec p s :
  ∃ b, s = PyStr.rstrip_with p s +:+ b ∧ all_chars p b = true
       ∧ ∀ c, last_char (PyStr.rstrip_with p s) = Some c → p c = false.
Proof.
  induction s as [|c s (b & Hs & Hb & Hl)].
  - exists "". by repeat split.
  - simpl PyStr.rstrip_with. destruct (PyStr.rstrip_with p s) as [|d r] eqn:Hr.
    + destruct (p c) eqn:Hc.
      * exists (String c s). repeat split; [|done].
        simpl. rewrite Hc. simpl. change ("" +:+ b) with b in Hs. by rewrite Hs.
      * exists b. repeat split; [|done|].
        -- rewrite app_cons. by rewrite <- Hs.
        -- simpl. by intros ? [= <-].
    + exists b. repeat split; [|done|].
      * rewrite app_cons. by rewrite <- Hs.
      * exact Hl.
Qed.

Lemma rstrip_with_first p s :
  (∀ c, first_char s = Some c → p c = false) →
  ∀ c, first_char (PyStr.rstrip_with p s) = Some c → p c = false.
Proof.
  intros Hf. destruct s as [|d s]; [done|].
  simpl PyStr.rstrip_with.
  destruct (PyStr.rstrip_with p s); [|exact Hf].
  rewrite (Hf d) by done. exact Hf.
Qed.

Lemma strip_with_spec p s : stripped_of p s (PyStr.strip_with p s).
Proof.
  unfold PyStr.strip_with.
  destruct (lstrip_with_spec p s) as (a & Hs & Ha & Hf).
  destruct (rstrip_with_spec p (PyStr.lstrip_with p s)) as (b & Hs' & Hb & Hl).
  exists a, b. split; [by rewrite <- Hs'|]. split; [done|]. split; [done|].
  split; [by apply rstrip_with_first|done].
Qed.

Lemma all_chars_app p a b :
  all_chars p (a +:+ b) = all_chars p a && all_chars p b.
Proof.
  induction a as [|c a IH]; [done|].
  rewrite app_cons. simpl. by rewrite IH, andb_assoc.
Qed.

Lemma strip_with_empty p s :
  PyStr.strip_with p s = "" ↔ all_chars p s = true.
Proof.
  destruct (strip_with_spec p s) as (a & b & Hs & Ha & Hb & Hf & Hl). split.
  - intros He. rewrite He in Hs. rewrite Hs, !all_chars_app, Ha, Hb. done.
  - intros Hall. rewrite Hs, !all_chars_app in Hall.
    apply andb_true_iff in Hall as [_ [Hm _]%andb_true_iff].
    destruct (PyStr.strip_with p s) as [|c m]; [done|].
    simpl in Hm. apply andb_true_iff in Hm as [Hc _].
    rewrite (Hf c) in Hc by done. done.
Qed.

Lemma split_cons_inv sep s : ∃ h t, PyStr.split sep s = h :: t.
Proof.
  induction s as [|c s (h & t & IH)]; simpl; [by eauto|].
  destruct (Ascii.eqb c sep); [by eauto|]. rewrite IH. by eauto.
Qed.

Lemma split_length sep s :
  length (PyStr.split sep s) = S (count_char sep s).
Proof.
  induction s as [|c s IH]; simpl; [done|].
  destruct (Ascii.eqb c sep); simpl; [by rewrite IH|].
  destruct (split_cons_inv sep s) as (h & t & Hs). rewrite Hs in *. exact IH.
Qed.

Lemma split_pieces sep s :
  Forall (λ piece, count_char sep piece = 0) (PyStr.split sep s).
Proof.
  induction s as [|c s IH]; simpl; [by repeat constructor|].
  destruct (Ascii.eqb c sep) eqn:Hc; [by constructor|].
  destruct (split_cons_inv sep s) as (h & t & Hs). rewrite Hs in *.
  apply Forall_cons in IH as [Hh Ht]. constructor; [|done].
  simpl. by rewrite Hc, Hh.
Qed.

Lemma join_split sep s : PyStr.join (String sep "") (PyStr.split sep s) = s.
Proof.
  induction s as [|c s IH]; simpl; [done|].
  destruct (Ascii.eqb c sep) eqn:Hc.
  - apply Ascii.eqb_eq in Hc as ->.
    destruct (split_cons_inv sep s) as (h & t & Hs). rewrite Hs in *.
    change (PyStr.join (String sep "") ("" :: h :: t))
      with (String sep (PyStr.join (String sep "") (h :: t))).
    by rewrite IH.
  - destruct (split_cons_inv sep s) as (h & t & Hs). rewrite Hs in *.
    destruct t as [|h' t].
    + simpl in *. by rewrite IH.
    + change (PyStr.join (String sep "") (String c h :: h' :: t))
        with (String c (PyStr.join (String sep "") (h :: h' :: t))).
      by rewrite IH.
Qed.

(** ** The Files field *)

(** C4, as stated, fails: a Files value made of two backticks is decoration
    only, yet the parser returns the one-element list holding the empty
    string. *)
Lemma C4_backticks_leave_an_empty_entry :
  ¬ (∀ raw, all_chars is_decoration raw = true → parse_files (Some raw) = []).
Proof.
  intros Hclaim. specialize (Hclaim "``" eq_refl). vm_compute in Hclaim.
  discriminate.
Qed.

(** C4: a missing, empty or all-white-space Files value gives the empty list.
    Any other value is stripped of surrounding white space and cut at its
    commas: the pieces hold no comma and joined by commas give the stripped
    value back; the result has one entry per piece, which is the piece
    without its surrounding white space and then without its surrounding
    backticks (nothing else is removed, so quote characters stay).  A value
    of backticks alone therefore gives the list holding one empty string,
    and the validator's files rule warns on that list as it does on the empty
    one. *)
Theorem C4_files_field (raw : string) :
  parse_files None = [] ∧
  (all_chars PyStr.isspace raw = true → parse_files (Some raw) = []) ∧
  (all_chars PyStr.isspace raw = false →
     ∃ pieces,
       PyStr.join "," pieces = PyStr.strip raw ∧
       Forall (λ piece, count_char "," piece = 0) pieces ∧
       Forall2 (λ piece entry,
                  ∃ mid, stripped_of PyStr.isspace piece mid
                         ∧ stripped_of PyStr.is_backtick mid entry)
               pieces (parse_files (Some raw)) ∧
       length (parse_files (Some raw)) = S (count_char "," (PyStr.strip raw))) ∧
  stripped_of PyStr.isspace raw (PyStr.strip raw) ∧
  parse_files (Some "``") = [""] ∧
  (∀ t, files t = [] ∨ files t = [""] → rule_files t = [files_warning t]).
Proof.
  split; [done|]. split; [|split; [|split; [|split]]].
  - intros Hall. unfold parse_files.
    rewrite decide_True; [done|]. by apply strip_with_empty.
  - intros Hall. unfold parse_files.
    rewrite decide_False.
    2:{ intros He. apply strip_with_empty in He. congruence. }
    exists (PyStr.split "," (PyStr.strip raw)).
    split; [apply join_split|]. split; [apply split_pieces|]. split.
    + apply Forall2_fmap_r, Forall_Forall2_diag, Forall_true. intros piece.
      exists (PyStr.strip piece). split; apply strip_with_spec.
    + by rewrite length_map, split_length.
  - apply strip_with_spec.
  - done.
  - intros t Ht. unfold rule_files. by rewrite decide_True.
Qed.

(** ** The task-reference pattern *)

Lemma string_length_app (a b : string) :
  String.length (a +:+ b) = String.length a + String.length b.
Proof.
  induction a as [|c a IH]; [done|]. rewrite app_cons. simpl. by rewrite IH.
Qed.

Lemma strip_prefix_Some pre s r :
  PyStr.strip_prefix pre s = Some r ↔ s = pre +:+ r.
Proof.
  revert s. induction pre as [|c pre IH]; intros s; simpl.
  - split; [by intros [= ->]|by intros ->].
  - destruct s as [|d s]; [done|]. rewrite app_cons.
    destruct (Ascii.eqb c d) eqn:Hcd.
    + apply Ascii.eqb_eq in Hcd as ->. rewrite IH.
      split; [by intros ->|by intros [= ->]].
    + split; [done|]. intros [= <- _]. by rewrite Ascii.eqb_refl in Hcd.
Qed.

Lemma span_spec p s :
  s = (PyStr.span p s).1 +:+ (PyStr.span p s).2 ∧
  all_chars p (PyStr.span p s).1 = true ∧
  (∀ c, first_char (PyStr.span p s).2 = Some c → p c = false).
Proof.
  induction s as [|c s (Hs & Ha & Hb)]; [done|].
  simpl PyStr.span. destruct (p c) eqn:Hc.
  - destruct (PyStr.span p s) as [a b]. simpl in *.
    rewrite Hc, Ha, app_cons. by rewrite <- Hs.
  - simpl. repeat split. by intros ? [= <-].
Qed.

Lemma span_unique p a b :
  all_chars p a = true → (∀ c, first_char b = Some c → p c = false) →
  PyStr.span p (a +:+ b) = (a, b).
Proof.
  intros Ha Hb. induction a as [|c a IH].
  - change ("" +:+ b) with b. destruct b as [|d b]; [done|].
    simpl. by rewrite (Hb d).
  - simpl in Ha. apply andb_true_iff in Ha as [Hc Ha].
    rewrite app_cons. simpl. by rewrite Hc, IH.
Qed.

Lemma digit_not_space c : PyStr.isdigit c = true → PyStr.isspace c = false.
Proof.
  unfold PyStr.isdigit, PyStr.isspace. intros Hd.
  apply andb_true_iff in Hd as [H1%N.leb_le H2%N.leb_le].
  repeat (apply orb_false_iff; split);
    rewrite ?andb_false_iff, ?N.leb_gt, ?N.eqb_neq; lia.
Qed.

Lemma match_task_ref_iff s ds rest :
  PyStr.match_task_ref s = Some (ds, rest) ↔
  ∃ ws, s = "Task" +:+ ws +:+ ds +:+ rest ∧
        ws ≠ "" ∧ all_chars PyStr.isspace ws = true ∧
        ds ≠ "" ∧ all_chars PyStr.isdigit ds = true ∧
        (∀ c, first_char rest = Some c → PyStr.isdigit c = false).
Proof.
  unfold PyStr.match_task_ref. split.
  - destruct (PyStr.strip_prefix "Task" s) as [r|] eqn:Hr; [|done].
    apply strip_prefix_Some in Hr.
    destruct (span_spec PyStr.isspace r) as (Hs1 & Ha1 & _).
    destruct (PyStr.span PyStr.isspace r) as [ws r1]. simpl in *.
    destruct (span_spec PyStr.isdigit r1) as (Hs2 & Ha2 & Hb2).
    destruct (PyStr.span PyStr.isdigit r1) as [ds' r2]. simpl in *.
    destruct ws as [|w ws]; [done|]. destruct ds' as [|d ds']; [done|].
    intros [= <- <-]. exists (String w ws).
    split; [by rewrite Hr, Hs1, Hs2|]. done.
  - intros (ws & -> & Hws & Hsp & Hds & Hdg & Hrest).
    rewrite (proj2 (strip_prefix_Some "Task" _ (ws +:+ ds +:+ rest)) eq_refl).
    rewrite (span_unique _ ws (ds +:+ rest) Hsp).
    2:{ destruct ds as [|d ds]; [done|]. rewrite app_cons. simpl.
        intros ? [= <-]. apply digit_not_space.
        simpl in Hdg. by apply andb_true_iff in Hdg as [? _]. }
    rewrite (span_unique _ ds rest Hdg Hrest).
    destruct ws; [done|]. destruct ds; [done|]. reflexivity.
Qed.

Lemma match_task_ref_head c s :
  c ≠ "T"%char → PyStr.match_task_ref (String c s) = None.
Proof.
  intros Hc. unfold PyStr.match_task_ref.
  change (PyStr.strip_prefix "Task" (String c s))
    with (if Ascii.eqb "T" c then PyStr.strip_prefix "ask" s else None).
  destruct (Ascii.eqb "T" c) eqn:He; [|done].
  apply Ascii.eqb_eq in He. congruence.
Qed.

Lemma findall_go_skip mid rest :
  PyStr.findall_go (String.length mid) (mid +:+ rest) = PyStr.findall_go 0 rest.
Proof.
  induction mid as [|c mid IH]; [done|]. rewrite app_cons. simpl. exact IH.
Qed.

Lemma every_match_skip mid rest :
  count_char "T" mid = 0 → every_match (mid +:+ rest) = every_match rest.
Proof.
  induction mid as [|c mid IH]; [done|]. simpl count_char.
  destruct (Ascii.eqb c "T") eqn:Hc; [done|]. intros Hm.
  rewrite app_cons. simpl every_match.
  rewrite match_task_ref_head; [by apply IH|].
  intros ->. by rewrite Ascii.eqb_refl in Hc.
Qed.

Lemma count_char_app c a b :
  count_char c (a +:+ b) = count_char c a + count_char c b.
Proof.
  induction a as [|d a IH]; [done|]. rewrite app_cons. simpl.
  rewrite IH. lia.
Qed.

Lemma class_without_T p s :
  p "T"%char = false → all_chars p s = true → count_char "T" s = 0.
Proof.
  intros HT. induction s as [|c s IH]; [done|]. simpl.
  intros [Hc Hs]%andb_true_iff. rewrite IH by done.
  destruct (Ascii.eqb c "T") eqn:He; [|done].
  apply Ascii.eqb_eq in He. congruence.
Qed.

(** Scanning with resumption after each match finds the occurrences at every
    position: no occurrence can start inside another. *)
Lemma findall_every_match s : PyStr.findall_task_refs s = every_match s.
Proof.
  unfold PyStr.findall_task_refs.
  remember (String.length s) as n eqn:Hn.
  revert s Hn. induction (lt_wf n) as [n _ IH]. intros s Hn.
  destruct s as [|c s]; [done|].
  simpl PyStr.findall_go. simpl every_match.
  destruct (PyStr.match_task_ref (String c s)) as [[ds rest]|] eqn:Hm.
  - apply match_task_ref_iff in Hm as (ws & Hs & _ & Hsp & _ & Hdg & _).
    change ("Task" +:+ ws +:+ ds +:+ rest)
      with (String "T" ("ask" +:+ ws +:+ ds +:+ rest)) in Hs.
    injection Hs as -> ->.
    assert ("ask" +:+ ws +:+ ds +:+ rest = ("ask" +:+ ws +:+ ds) +:+ rest)
      as Hmid by (by rewrite !string_app_assoc).
    rewrite Hmid.
    replace (String.length (("ask" +:+ ws +:+ ds) +:+ rest) - String.length rest)
      with (String.length ("ask" +:+ ws +:+ ds))
      by (rewrite (string_length_app _ rest); lia).
    rewrite findall_go_skip, every_match_skip.
    + f_equal. apply (IH (String.length rest)); [|done].
      subst n. simpl. rewrite !string_length_app. lia.
    + rewrite !count_char_app.
      rewrite (class_without_T PyStr.isspace ws), (class_without_T PyStr.isdigit ds)
        by done. done.
  - apply (IH (String.length s)); [|done]. subst n. simpl. lia.
Qed.

Lemma every_match_iff s ds :
  ds ∈ every_match s ↔ ∃ pre, task_ref_at s pre ds.
Proof.
  induction s as [|c s IH].
  - simpl. rewrite elem_of_nil. split; [done|].
    intros (pre & ws & rest & Hs & _).
    destruct pre; discriminate.
  - assert (ds ∈ every_match (String c s) ↔
            (∃ rest, PyStr.match_task_ref (String c s) = Some (ds, rest))
            ∨ ds ∈ every_match s) as ->.
    { simpl. destruct (PyStr.match_task_ref (String c s)) as [[d r]|].
      - rewrite elem_of_cons. split.
        + intros [->|?]; [left; by eauto|by right].
        + intros [(r' & [= -> _])|?]; [by left|by right].
      - split; [by right|]. by intros [(? & ?)|?]. }
    rewrite IH. split.
    + intros [(rest & Hm)|(pre & ws & rest & Hs & Hrest)].
      * apply match_task_ref_iff in Hm as (ws & Hs & Hrest).
        exists "", ws, rest. done.
      * exists (String c pre), ws, rest. by rewrite app_cons, <- Hs.
    + intros (pre & ws & rest & Hs & Hrest). destruct pre as [|c' pre].
      * left. exists rest. apply match_task_ref_iff. by exists ws.
      * right. rewrite app_cons in Hs. injection Hs as -> Hs.
        by exists pre, ws, rest.
Qed.

(** C8: a missing Preconditions field, or one whose stripped text is "none" in
    any letter case, gives no precondition.  Any other text gives the decimal
    values of the digit runs of the occurrences of the pattern (the literal
    "Task", white space, digits) at every position of the stripped text, left
    to right; a number is a precondition exactly when some occurrence carries
    it.  In a plan of two tasks with different numbers whose second task has
    the Preconditions text "none", the second task has no precondition and no
    [preconditions] error is attributed to it, whatever the first task is. *)
Theorem C8_preconditions_field (raw : string) :
  parse_preconditions None = [] ∧
  (PyStr.lower (PyStr.strip raw) = "none" → parse_preconditions (Some raw) = []) ∧
  (PyStr.lower (PyStr.strip raw) ≠ "none" →
     parse_preconditions (Some raw)
     = PyStr.int <$> every_match (PyStr.strip raw) ∧
     ∀ n, n ∈ parse_preconditions (Some raw) ↔
          ∃ pre ds, task_ref_at (PyStr.strip raw) pre ds ∧ n = PyStr.int ds) ∧
  (∀ order m1 m2,
     header_num m1 ≠ header_num m2 →
     preconditions_match m2 = Some "none" →
     preconditions (parse_task m2) = [] ∧
     ∃ r, validate_tasks order [parse_task m1; parse_task m2] = Ok r ∧
          filter (finding_of "preconditions" (header_num m2)) (issues r) = []).
Proof.
  split; [done|]. split; [|split].
  - intros Hnone. unfold parse_preconditions. by rewrite decide_False by tauto.
  - intros Hsome. unfold parse_preconditions. rewrite decide_True by done.
    rewrite findall_every_match. split; [done|]. intros n.
    change (map PyStr.int ?l) with (PyStr.int <$> l).
    rewrite list_elem_of_fmap. split.
    + intros (ds & -> & (pre & Hat)%every_match_iff). by exists pre, ds.
    + intros (pre & ds & Hat & ->). exists ds. split; [done|].
      apply every_match_iff. by exists pre.
  - intros order m1 m2 Hne Hm2.
    assert (preconditions (parse_task m2) = []) as Hp.
    { simpl. by rewrite Hm2. }
    split; [done|].
    destruct (precondition_errors_of order [parse_task m1; parse_task m2]
                (parse_task m2)) as (r & Hr & Hf).
    + simpl. apply NoDup_cons_2; [set_solver|]. apply NoDup_singleton.
    + right. left.
    + exists r. split; [done|]. etrans; [exact Hf|].
      unfold rule_preconditions, dangling. by rewrite Hp.
Qed.

(** ** Recorded cycles are walks; no recorded cycle means a ranking *)

Lemma walk_snoc g l x y :
  walk g (l ++ [x]) → y ∈ dict_get g x → walk g ((l ++ [x]) ++ [y]).
Proof.
  intros Hw Hy i a b Ha Hb.
  destruct (decide (S i < length (l ++ [x]))) as [Hlt|Hge].
  - rewrite lookup_app_l in Ha by lia. rewrite lookup_app_l in Hb by lia.
    by apply (Hw i).
  - assert (i < length (l ++ [x])) as Hi.
    { apply lookup_lt_Some in Hb. rewrite length_app in Hb. simpl in Hb. lia. }
    assert (S i = length (l ++ [x])) as Hlen by lia.
    rewrite lookup_app_l in Ha by lia.
    rewrite lookup_app_r, Hlen, Nat.sub_diag in Hb by lia. injection Hb as <-.
    rewrite length_app in Hlen. simpl in Hlen.
    rewrite lookup_app_r in Ha by lia.
    replace (i - length l) with 0 in Ha by lia. by injection Ha as <-.
Qed.

Lemma walk_drop g l i : walk g l → walk g (drop i l).
Proof.
  intros Hw j a b Ha Hb. rewrite lookup_drop in Ha, Hb.
  apply (Hw (i + j)); [done|]. by rewrite <- Nat.add_succ_r.
Qed.

Lemma walk_singleton g x : walk g [x].
Proof. intros i a b Ha Hb. destruct i; discriminate. Qed.

Lemma finished_enter node st :
  node ∉ visited st → rec_stack st ⊆ visited st →
  finished (enter node st) = finished st.
Proof. intros Hn Hs. unfold finished. simpl. set_solver. Qed.

Lemma ranked_ext g rk st st' :
  finished st' = finished st → ranked g rk st → ranked g rk st'.
Proof. intros Hf Hr u. rewrite Hf. apply Hr. Qed.

Section dfs_trace_rules.
Variable g : Graph.

Lemma visit_neighbors_traces fuel (IH : dfs_traces g fuel) neighbors :
  ∀ st st',
    stack_inv st → (∀ d, d ∈ neighbors → d ∈ universe g) →
    size (universe g ∖ visited st) ≤ fuel →
    visit_neighbors (dfs fuel g) neighbors st = Ok st' →
    ((∀ d, d ∈ neighbors → walk g (path st ++ [d])) →
     ∀ new, cycles st' = cycles st ++ new → Forall (walk g) new) ∧
    (∀ rk, ranked g rk st → cycles st' = cycles st →
           ∃ rk', ranked g rk' st' ∧ ∀ d, d ∈ neighbors → d ∈ finished st').
Proof.
  induction neighbors as [|d ns IHns]; intros st st' Hinv Hu Hsz Hrun.
  - simpl in Hrun. injection Hrun as <-. split.
    + intros _ new Hnew.
      rewrite <- (app_nil_r (cycles st)) in Hnew at 1.
      apply app_inv_head in Hnew as <-. constructor.
    + intros rk Hrk _. exists rk. split; [done|].
      intros d Hd. by apply elem_of_nil in Hd.
  - simpl in Hrun. apply bind_Ok_inv in Hrun as (s1 & Hs1 & Hs2).
    assert (dfs_frame g st s1 ∧ d ∈ visited s1) as [Hf1 Hd1].
    { case_decide as Hv.
      - destruct (dfs_ok g fuel d st Hinv Hv) as (s & Hs & Hf & Hd & _);
          [apply Hu; left|done|].
        rewrite Hs in Hs1. by injection Hs1 as <-.
      - case_decide as Hr.
        + destruct (record_cycle_ok g d st Hinv Hr) as (i & _ & Hrc & Hf).
          rewrite Hrc in Hs1. injection Hs1 as <-. done.
        + injection Hs1 as <-. split; [by apply dfs_frame_refl|done]. }
    assert (stack_inv s1) as Hinv1 by apply Hf1.
    assert (size (universe g ∖ visited s1) ≤ fuel) as Hsz1.
    { etrans; [|exact Hsz]. apply subseteq_size.
      pose proof (frame_grow _ _ _ Hf1). set_solver. }
    destruct (visit_neighbors_ok g fuel (dfs_ok g fuel) ns s1 Hinv1)
      as (s2 & Hs2' & Hf2 & _); [intros; apply Hu; by right|done|].
    rewrite Hs2' in Hs2. injection Hs2 as ->.
    destruct (frame_cycles _ _ _ Hf1) as (n1 & Hn1 & _).
    destruct (frame_cycles _ _ _ Hf2) as (n2 & Hn2 & _).
    destruct (IHns s1 st' Hinv1) as [IHa IHb];
      [intros; apply Hu; by right|done|done|].
    split.
    + intros Hwalk new Hnew.
      rewrite Hn2, Hn1, <- app_assoc in Hnew. apply app_inv_head in Hnew as <-.
      apply Forall_app. split.
      * case_decide as Hv.
        -- destruct (IH d st s1 Hinv Hv) as [Ha _]; [apply Hu; left|done|done|].
           apply Ha; [apply Hwalk; left|done].
        -- case_decide as Hr.
           ++ destruct (record_cycle_ok g d st Hinv Hr) as (i & Hi & Hrc & _).
              rewrite Hrc in Hs1. injection Hs1 as <-. simpl in Hn1.
              apply app_inv_head in Hn1 as <-. apply Forall_singleton.
              rewrite <- drop_app_le by (apply lookup_lt_Some in Hi; lia).
              apply walk_drop, Hwalk. left.
           ++ injection Hs1 as <-.
              rewrite <- (app_nil_r (cycles st)) in Hn1 at 1.
              apply app_inv_head in Hn1 as <-. constructor.
      * apply (IHa); [|done]. intros d' Hd'.
        rewrite (frame_path _ _ _ Hf1). apply Hwalk. by right.
    + intros rk Hrk Hsame.
      rewrite Hn2, Hn1, <- app_assoc in Hsame.
      rewrite <- (app_nil_r (cycles st)) in Hsame at 2.
      apply app_inv_head, app_eq_nil in Hsame as [-> ->].
      rewrite app_nil_r in Hn1. rewrite app_nil_r in Hn2.
      assert (∃ rk1, ranked g rk1 s1 ∧ d ∈ finished s1) as (rk1 & Hrk1 & Hfin1).
      { case_decide as Hv.
        - destruct (IH d st s1 Hinv Hv) as [_ Hb]; [apply Hu; left|done|done|].
          destruct (Hb rk Hrk Hn1) as (rk1 & Hrk1). exists rk1. split; [done|].
          unfold finished. rewrite (frame_stack _ _ _ Hf1).
          destruct Hinv as [_ Hsub]. set_solver.
        - case_decide as Hr.
          + destruct (record_cycle_ok g d st Hinv Hr) as (i & _ & Hrc & _).
            rewrite Hrc in Hs1. injection Hs1 as <-. simpl in Hn1.
            rewrite <- (app_nil_r (cycles st)) in Hn1 at 2.
            by apply app_inv_head in Hn1.
          + injection Hs1 as <-. exists rk. split; [done|].
            unfold finished. set_solver. }
      destruct (IHb rk1 Hrk1 Hn2) as (rk2 & Hrk2 & Hfin2).
      exists rk2. split; [done|].
      intros d' [->|Hd']%elem_of_cons; [|by apply Hfin2].
      unfold finished in *. rewrite (frame_stack _ _ _ Hf2).
      pose proof (frame_grow _ _ _ Hf2). set_solver.
Qed.

Lemma dfs_traces_ok fuel : dfs_traces g fuel.
Proof.
  induction fuel as [|fuel IH]; intros node st st' Hinv Hv Hu Hsz Hrun.
  - discriminate.
  - simpl in Hrun. apply bind_Ok_inv in Hrun as (s1 & Hs1 & Hleave).
    pose proof (enter_todo g node st Hu Hv) as Htodo.
    pose proof (enter_inv node st Hinv) as Hinv0.
    assert (∀ d, d ∈ dict_get g node → d ∈ universe g) as Hnb
      by (intros d; apply dict_get_universe).
    destruct (visit_neighbors_ok g fuel (dfs_ok g fuel) (dict_get g node)
                (enter node st) Hinv0 Hnb) as (s1' & Hs1' & Hf1 & _); [lia|].
    rewrite Hs1' in Hs1. injection Hs1 as ->.
    destruct (visit_neighbors_traces fuel IH (dict_get g node) (enter node st) s1
                Hinv0 Hnb) as [Ha Hb]; [lia|done|].
    destruct Hinv as [Hs Hsub].
    assert (node ∉ rec_stack st) as Hnr by set_solver.
    pose proof (frame_path _ _ _ Hf1) as Hp. simpl in Hp.
    pose proof (frame_stack _ _ _ Hf1) as Hr. simpl in Hr.
    pose proof (frame_grow _ _ _ Hf1) as Hg. simpl in Hg.
    unfold leave in Hleave. rewrite Hp in Hleave.
    destruct (path st ++ [node]) eqn:Hcons;
      [by apply app_eq_nil in Hcons as [_ ?]|].
    rewrite <- Hcons in *. clear Hcons. injection Hleave as <-. simpl.
    split.
    + intros Hwalk new Hnew. apply Ha; [|done].
      intros d Hd. simpl. by apply walk_snoc.
    + intros rk Hrk Hsame.
      destruct (Hb rk) as (rk1 & Hrk1 & Hfin1); [|done|].
      { apply (ranked_ext g rk st); [|done]. by apply finished_enter. }
      set (k := Z.of_nat (size (finished s1))).
      exists (λ x, if decide (x = node) then (k + 1)%Z else rk1 x).
      assert (node ∉ finished s1) as Hnf.
      { unfold finished. rewrite Hr. set_solver. }
      assert (finished (mkDfs (visited s1) (rec_stack s1 ∖ {[node]})
                          (removelast (path st ++ [node])) (cycles s1) (calls s1))
              = {[node]} ∪ finished s1) as Hfin.
      { unfold finished. simpl. rewrite Hr. apply set_eq. intros x.
        destruct (decide (x = node)) as [->|Hne]; set_solver. }
      intros u. rewrite Hfin, size_union, size_singleton by set_solver.
      intros Hu'. destruct (decide (u = node)) as [->|Hne].
      * split; [lia|]. intros d Hd.
        specialize (Hfin1 d Hd).
        assert (d ≠ node) as Hdn by (intros ->; done).
        rewrite decide_False by done.
        split; [set_solver|]. destruct (Hrk1 d Hfin1) as [Hle _]. lia.
      * assert (u ∈ finished s1) as Hu1 by set_solver.
        destruct (Hrk1 u Hu1) as [Hle Hdeps]. split; [lia|].
        intros d Hd. destruct (Hdeps d Hd) as [Hdf Hlt].
        assert (d ≠ node) as Hdn by (intros ->; done).
        rewrite decide_False by done. split; [set_solver|done].
Qed.
End dfs_trace_rules.

Lemma visit_roots_traces g fuel roots :
  ∀ st st',
    path st = [] → stack_inv st → (∀ r, r ∈ roots → r ∈ universe g) →
    size (universe g ∖ visited st) ≤ fuel →
    visit_roots fuel g roots st = Ok st' →
    (∀ new, cycles st' = cycles st ++ new → Forall (walk g) new) ∧
    (∀ rk, ranked g rk st → cycles st' = cycles st → ∃ rk', ranked g rk' st').
Proof.
  induction roots as [|r rs IH]; intros st st' Hp Hinv Hu Hsz Hrun.
  - simpl in Hrun. injection Hrun as <-. split.
    + intros new Hnew. rewrite <- (app_nil_r (cycles st)) in Hnew at 1.
      apply app_inv_head in Hnew as <-. constructor.
    + intros rk Hrk _. by exists rk.
  - simpl in Hrun. apply bind_Ok_inv in Hrun as (s1 & Hs1 & Hs2).
    assert (mkDfs (visited st) (rec_stack st) [] (cycles st) (calls st) = st)
      as Hst by (destruct st; simpl in *; by subst).
    rewrite Hst in Hs1.
    assert (dfs_frame g st s1) as Hf1.
    { case_decide as Hv.
      - destruct (dfs_ok g fuel r st Hinv Hv) as (s & Hs & Hf & _);
          [apply Hu; left|done|].
        rewrite Hs in Hs1. by injection Hs1 as <-.
      - injection Hs1 as <-. by apply dfs_frame_refl. }
    assert (path s1 = []) as Hp1 by (rewrite (frame_path _ _ _ Hf1); done).
    assert (stack_inv s1) as Hinv1 by apply Hf1.
    assert (size (universe g ∖ visited s1) ≤ fuel) as Hsz1.
    { etrans; [|exact Hsz]. apply subseteq_size.
      pose proof (frame_grow _ _ _ Hf1). set_solver. }
    destruct (visit_roots_ok g fuel rs s1 Hp1 Hinv1)
      as (s2 & Hs2' & _ & Hf2 & _); [intros; apply Hu; by right|done|].
    rewrite Hs2' in Hs2. injection Hs2 as ->.
    destruct (frame_cycles _ _ _ Hf1) as (n1 & Hn1 & _).
    destruct (frame_cycles _ _ _ Hf2) as (n2 & Hn2 & _).
    destruct (IH s1 st' Hp1 Hinv1) as [IHa IHb];
      [intros; apply Hu; by right|done|done|].
    split.
    + intros new Hnew.
      rewrite Hn2, Hn1, <- app_assoc in Hnew. apply app_inv_head in Hnew as <-.
      apply Forall_app. split; [|by apply IHa].
      case_decide as Hv.
      * destruct (dfs_traces_ok g fuel r st s1 Hinv Hv) as [Ha _];
          [apply Hu; left|done|done|].
        apply Ha; [|done]. rewrite Hp. apply walk_singleton.
      * injection Hs1 as <-. rewrite <- (app_nil_r (cycles st)) in Hn1 at 1.
        apply app_inv_head in Hn1 as <-. constructor.
    + intros rk Hrk Hsame.
      rewrite Hn2, Hn1, <- app_assoc in Hsame.
      rewrite <- (app_nil_r (cycles st)) in Hsame at 2.
      apply app_inv_head, app_eq_nil in Hsame as [-> ->].
      rewrite app_nil_r in Hn1. rewrite app_nil_r in Hn2.
      assert (∃ rk1, ranked g rk1 s1) as (rk1 & Hrk1).
      { case_decide as Hv.
        - destruct (dfs_traces_ok g fuel r st s1 Hinv Hv) as [_ Hb];
            [apply Hu; left|done|done|].
          by apply (Hb rk).
        - injection Hs1 as <-. by exists rk. }
      by apply (IHb rk1).
Qed.

Lemma walk_rank g rk l : ∀ x,
  descends g rk → walk g (x :: l) → ∀ y, y ∈ l → (rk y < rk x)%Z.
Proof.
  induction l as [|z l IH]; intros x Hdesc Hw y Hy.
  - by apply elem_of_nil in Hy.
  - assert (rk z < rk x)%Z as Hzx by (apply Hdesc, (Hw 0); done).
    apply elem_of_cons in Hy as [->|Hy]; [done|].
    assert (rk y < rk z)%Z; [|lia].
    apply IH; [done| |done]. intros i a b Ha Hb. by apply (Hw (S i)).
Qed.

Lemma descends_no_cycle g rk : descends g rk → ¬ has_cycle g.
Proof.
  intros Hdesc (c & (x & mid & ->) & Hw).
  assert (rk x < rk x)%Z; [|lia].
  apply (walk_rank g rk (mid ++ [x]) x Hdesc Hw).
  apply elem_of_app. right. left.
Qed.

(** The search from the empty state: its cycles are closed walks of the
    graph, and it records none exactly when the graph has a descending
    rank. *)
Lemma search_traces tasks :
  ∃ st, run_dfs (enough_fuel tasks) tasks = Ok st ∧
        detect_cycles tasks = Ok (cycles st) ∧
        visited st = universe (build_graph tasks) ∧
        rec_stack st = ∅ ∧ path st = [] ∧
        calls st = size (universe (build_graph tasks)) ∧
        Forall (λ c, closed_walk c ∧ walk (build_graph tasks) c) (cycles st) ∧
        (cycles st = [] → ∃ rk, descends (build_graph tasks) rk).
Proof.
  set (g := build_graph tasks).
  destruct (search_ok g (enough_fuel tasks) (enough_fuel_covers tasks))
    as (st & Hst & Hv & Hc & Hr & Hp & Hcw & _).
  exists st. split; [done|]. split.
  { unfold detect_cycles, run_dfs. fold g. by rewrite Hst. }
  split; [done|]. split; [done|]. split; [done|]. split; [done|].
  destruct (visit_roots_traces g (enough_fuel tasks) (dict_keys g) dfs_init st)
    as [Ha Hb].
  { done. } { apply dfs_init_inv. } { apply dict_keys_universe. }
  { etrans; [|apply enough_fuel_covers]. apply subseteq_size. set_solver. }
  { done. }
  split.
  - apply Forall_and. split; [done|]. by apply Ha.
  - intros Hnil. destruct (Hb (λ _, 0%Z)) as (rk & Hrk).
    { intros u Hu. unfold finished in Hu. simpl in Hu. set_solver. }
    { by rewrite Hnil. }
    exists rk. intros v d Hd.
    assert (v ∈ finished st) as Hvf.
    { unfold finished. rewrite Hv, Hr.
      assert (v ∈ universe g); [|set_solver].
      apply dict_keys_universe.
      destruct (decide (v ∈ dict_keys g)) as [|Hn]; [done|].
      rewrite (dict_get_not_key _ _ Hn) in Hd. by apply elem_of_nil in Hd. }
    by apply (Hrk v Hvf).
Qed.

(** ** What the search and the validator guarantee *)

Lemma detect_cycles_sound (tasks : list Task) :
  ∃ cs, detect_cycles tasks = Ok cs ∧
        ∀ c, c ∈ cs →
             (∃ x mid, c = x :: mid ++ [x]) ∧
             ∀ i x y, c !! i = Some x → c !! S i = Some y →
                      ∃ t, t ∈ tasks ∧ num t = x ∧ y ∈ preconditions t.
Proof.
  destruct (search_traces tasks) as (st & _ & Hdet & _ & _ & _ & _ & Hcs & _).
  exists (cycles st). split; [done|]. intros c Hc.
  rewrite Forall_forall in Hcs. destruct (Hcs c Hc) as [Hclosed Hwalk].
  split; [done|]. intros i x y Hx Hy.
  by apply build_graph_get, (Hwalk i).
Qed.

(** X1: every cycle [detect_cycles] reports is a dependency cycle of the plan:
    it starts and ends with the same number, and each number in it is the
    number of a task that lists the next number among its preconditions. *)
Theorem reported_cycles_are_dependency_cycles (tasks : list Task) :
  ∃ cs, detect_cycles tasks = Ok cs ∧
        ∀ c, c ∈ cs →
             (∃ x mid, c = x :: mid ++ [x]) ∧
             ∀ i x y, c !! i = Some x → c !! S i = Some y →
                      ∃ t, t ∈ tasks ∧ num t = x ∧ y ∈ preconditions t.
Proof. apply detect_cycles_sound. Qed.

Lemma detect_cycles_exact (tasks : list Task) :
  detect_cycles tasks = Ok [] ↔ ¬ has_cycle (build_graph tasks).
Proof.
  destruct (search_traces tasks)
    as (st & _ & Hdet & _ & _ & _ & _ & Hcs & Hrank).
  rewrite Hdet. split.
  - intros [= Hnil]. destruct (Hrank Hnil) as (rk & Hrk).
    by apply (descends_no_cycle _ rk).
  - intros Hno. destruct (cycles st) as [|c cs]; [done|].
    exfalso. apply Hno. exists c. by apply Forall_cons in Hcs as [? _].
Qed.

(** X2: [detect_cycles] returns the empty list exactly when the dependency
    graph has no closed walk: it never misses a cyclic plan and never reports
    a cycle in an acyclic one. *)
Theorem no_cycle_reported_iff_acyclic (tasks : list Task) :
  detect_cycles tasks = Ok [] ↔ ¬ has_cycle (build_graph tasks).
Proof. apply detect_cycles_exact. Qed.

(** X3: when the search returns, no node is left on the recursion stack, the
    path is empty, and the visited nodes are exactly the task numbers and the
    numbers stored as their dependencies; [dfs] ran once for each of them. *)
Theorem search_visits_every_node_once (tasks : list Task) :
  ∃ st, run_dfs (enough_fuel tasks) tasks = Ok st ∧
        rec_stack st = ∅ ∧ path st = [] ∧
        (∀ n, n ∈ visited st ↔
              n ∈ map num tasks
              ∨ ∃ k, k ∈ map num tasks ∧ n ∈ dict_get (build_graph tasks) k) ∧
        calls st = size (visited st).
Proof.
  destruct (search_traces tasks) as (st & Hst & _ & Hv & Hr & Hp & Hc & _).
  exists st. split; [done|]. split; [done|]. split; [done|].
  split; [|by rewrite Hv].
  intros n. rewrite Hv. unfold universe, graph_nodes.
  rewrite elem_of_list_to_set, elem_of_app, list_elem_of_bind.
  rewrite build_graph_keys. split.
  - intros [?|(k & Hn & Hk)]; [by left|right].
    exists k. by rewrite <- build_graph_keys.
  - intros [?|(k & Hk & Hn)]; [by left|right].
    exists k. by rewrite build_graph_keys.
Qed.

Lemma fold_graph_last tasks : ∀ g n,
  dict_get (fold_left (λ g t, dict_set g (num t) (preconditions t)) tasks g) n
  = match last (filter (λ t, num t = n) tasks) with
    | Some t => preconditions t
    | None => dict_get g n
    end.
Proof.
  induction tasks as [|t ts IH]; intros g n; [done|].
  simpl fold_left. rewrite IH, filter_cons, dict_get_set.
  destruct (decide (num t = n)) as [Hn|Hn].
  - destruct (filter (λ t, num t = n) ts) as [|t' l] eqn:Hf; [done|].
    rewrite last_cons_cons. destruct (last (t' :: l)) eqn:Hl; [done|].
    by apply last_None in Hl.
  - done.
Qed.

Lemma dict_set_NoDup g k v :
  NoDup (dict_keys g) → NoDup (dict_keys (dict_set g k v)).
Proof.
  unfold dict_keys. induction g as [|[k0 v0] g IH]; simpl; intros Hnd.
  - apply NoDup_singleton.
  - apply NoDup_cons in Hnd as [Hk0 Hnd].
    destruct (decide (k0 = k)) as [->|Hne]; simpl.
    + by apply NoDup_cons_2.
    + apply NoDup_cons_2; [|by apply IH].
      intros [->|Hin]%dict_keys_set; done.
Qed.

(** X4: the dependency graph built from the tasks has each task number once
    as a key, and looking a number up gives the preconditions of the last
    task carrying that number (a later duplicate replaces an earlier one),
    or the empty list when no task carries it. *)
Theorem graph_keeps_last_duplicate (tasks : list Task) :
  NoDup (dict_keys (build_graph tasks)) ∧
  (∀ n, n ∈ dict_keys (build_graph tasks) ↔ n ∈ map num tasks) ∧
  ∀ n, dict_get (build_graph tasks) n
       = match last (filter (λ t, num t = n) tasks) with
         | Some t => preconditions t
         | None => []
         end.
Proof.
  split; [|split].
  - unfold build_graph. generalize (NoDup_nil_2 (A:=Z)).
    change (@nil Z) with (dict_keys []). generalize (@nil (Z * list Z)).
    induction tasks as [|t ts IH]; intros g Hg; [done|].
    simpl. apply IH. by apply dict_set_NoDup.
  - apply build_graph_keys.
  - intros n. apply fold_graph_last.
Qed.

Lemma task_issues_nil task_nums t :
  task_issues task_nums t = [] ↔ task_sound task_nums t.
Proof.
  unfold task_issues, task_sound, rule_atomic_scope, rule_verifiable,
    rule_complexity, rule_preconditions, dangling.
  split.
  - intros Hnil.
    apply app_eq_nil in Hnil as [H1 [H2 [H3 H4]%app_eq_nil]%app_eq_nil].
    repeat case_decide; try discriminate.
    split; [lia|]. split; [done|]. split; [done|].
    apply fmap_nil_inv in H3. intros dep Hdep.
    destruct (decide (dep ∈ task_nums)) as [|Hn]; [done|].
    assert (dep ∈ filter (λ d, d ∉ task_nums) (preconditions t)) as Hin
      by (by apply list_elem_of_filter).
    rewrite H3 in Hin. by apply elem_of_nil in Hin.
  - intros (H1 & H2 & H3 & H4).
    rewrite !decide_False by (done || lia).
    rewrite (filter_none _ (preconditions t)); [done|].
    apply Forall_forall. intros dep Hdep Hn. by apply Hn, H4.
Qed.

Lemma passed_iff (order : list string) (tasks : list Task) :
  ∃ r, validate_tasks order tasks = Ok r ∧
       (passed r = true ↔
          (∀ t, t ∈ tasks → task_sound (task_numbers tasks) t)
          ∧ ¬ has_cycle (build_graph tasks)).
Proof.
  destruct (validate_tasks_eq order tasks) as (cs & Hcs & _ & Hr).
  eexists. split; [exact Hr|]. cbn [passed].
  rewrite bool_decide_eq_true, length_zero_iff_nil.
  rewrite <- detect_cycles_exact, Hcs. split.
  - intros [Hi Hc]%app_eq_nil. split.
    + intros t Ht. apply task_issues_nil.
      destruct (task_issues (task_numbers tasks) t) as [|f l] eqn:Hf; [done|].
      assert (f ∈ tasks ≫= task_issues (task_numbers tasks)) as Hin.
      { apply list_elem_of_bind. exists t. split; [|done]. rewrite Hf. left. }
      rewrite Hi in Hin. by apply elem_of_nil in Hin.
    + by apply fmap_nil_inv in Hc as ->.
  - intros [Hs [= ->]]. rewrite app_nil_r.
    apply bind_all_nil. intros t Ht. by apply task_issues_nil, Hs.
Qed.

(** X5: validation passes exactly when every task keeps the hard rules (at
    most three files, a Done-when text, a complexity label, every
    precondition an existing task number) and the dependency graph has no
    closed walk. *)
Theorem passed_iff_sound_and_acyclic (order : list string) (tasks : list Task) :
  ∃ r, validate_tasks order tasks = Ok r ∧
       (passed r = true ↔
          (∀ t, t ∈ tasks → task_sound (task_numbers tasks) t)
          ∧ ¬ has_cycle (build_graph tasks)).
Proof. apply passed_iff. Qed.


(** ** Reading back a written task reference *)

Lemma int_acc_app acc a b :
  PyStr.int_acc acc (a +:+ b) = PyStr.int_acc (PyStr.int_acc acc a) b.
Proof.
  revert acc. induction a as [|c a IH]; intros acc; [done|].
  rewrite app_cons. simpl. apply IH.
Qed.

Lemma digit_val_range c :
  PyStr.isdigit c = true → (0 ≤ PyStr.digit_val c ≤ 9)%Z.
Proof.
  unfold PyStr.isdigit, PyStr.digit_val.
  intros [H1%N.leb_le H2%N.leb_le]%andb_true_iff. lia.
Qed.

Lemma int_acc_nonneg s : ∀ acc,
  all_chars PyStr.isdigit s = true → (0 ≤ acc)%Z → (0 ≤ PyStr.int_acc acc s)%Z.
Proof.
  induction s as [|c s IH]; intros acc Hs Hacc; [done|].
  simpl in *. apply andb_true_iff in Hs as [Hc Hs].
  apply IH; [done|]. pose proof (digit_val_range c Hc). lia.
Qed.

Lemma pretty_N_char_digit d :
  (d < 10)%N →
  PyStr.isdigit (pretty_N_char d) = true
  ∧ PyStr.digit_val (pretty_N_char d) = Z.of_N d.
Proof.
  intros Hd.
  assert (d = 0 ∨ d = 1 ∨ d = 2 ∨ d = 3 ∨ d = 4 ∨ d = 5 ∨ d = 6 ∨ d = 7
          ∨ d = 8 ∨ d = 9)%N as Hcases by lia.
  repeat (destruct Hcases as [->|Hcases]; [by vm_compute|]).
  subst. by vm_compute.
Qed.

(** The decimal text [pretty] writes: digits only, read back by [int]. *)
Lemma pretty_N_go_digits x : ∀ s,
  (0 < x)%N →
  ∃ ds, pretty_N_go x s = ds +:+ s ∧ ds ≠ "" ∧
        all_chars PyStr.isdigit ds = true ∧
        ∀ acc, PyStr.int_acc acc ds
               = (acc * 10 ^ Z.of_nat (String.length ds) + Z.of_N x)%Z.
Proof.
  induction (N.lt_wf_0 x) as [x _ IH]. intros s Hx.
  rewrite pretty_N_go_step by done.
  destruct (pretty_N_char_digit (x `mod` 10)%N) as [Hdig Hval];
    [by apply N.mod_lt|].
  set (c := pretty_N_char (x `mod` 10)%N) in *.
  destruct (decide (x `div` 10 = 0)%N) as [Hz|Hnz].
  - rewrite Hz, pretty_N_go_0. exists (String c ""). split; [done|].
    split; [done|]. split; [by simpl; rewrite Hdig|].
    intros acc. simpl PyStr.int_acc. rewrite Hval.
    change (Z.of_nat (String.length (String c ""))) with 1%Z.
    rewrite Z.pow_1_r.
    apply N.div_small_iff in Hz; [|done].
    rewrite (N.mod_small x 10 Hz). ring.
  - destruct (IH (x `div` 10)%N) with (s := String c s)
      as (ds & Hgo & Hne & Hall & Hint).
    { apply N.div_lt; lia. } { by apply N.neq_0_lt_0. }
    exists (ds +:+ String c ""). split.
    { by rewrite Hgo, string_app_assoc. }
    split; [by destruct ds|]. split.
    { rewrite all_chars_app, Hall. simpl. by rewrite Hdig. }
    intros acc. rewrite int_acc_app, Hint. simpl PyStr.int_acc. rewrite Hval.
    rewrite string_length_app.
    change (String.length (String c "")) with 1.
    rewrite Nat2Z.inj_add, Z.pow_add_r by lia.
    change (10 ^ Z.of_nat 1)%Z with 10%Z.
    rewrite (N.div_mod x 10 ltac:(done)) at 3.
    rewrite N2Z.inj_add, N2Z.inj_mul. change (Z.of_N 10) with 10%Z. ring.
Qed.

Lemma pretty_Z_digits (n : Z) :
  (0 ≤ n)%Z →
  pretty n ≠ "" ∧ all_chars PyStr.isdigit (pretty n) = true
  ∧ PyStr.int (pretty n) = n.
Proof.
  intros Hn. destruct n as [|p|p]; [done| |lia].
  change (pretty (Z.pos p)) with (pretty (N.pos p)).
  unfold pretty, pretty_N. rewrite decide_False by done.
  destruct (pretty_N_go_digits (N.pos p) "") as (ds & Hgo & Hne & Hall & Hint);
    [done|].
  assert (ds +:+ "" = ds) as Hnil.
  { clear. induction ds as [|c ds IH]; [done|]. by rewrite app_cons, IH. }
  rewrite Hgo, Hnil. split; [done|]. split; [done|].
  unfold PyStr.int. rewrite Hint. simpl. lia.
Qed.

Lemma lstrip_with_id p s :
  (∀ c, first_char s = Some c → p c = false) → PyStr.lstrip_with p s = s.
Proof. intros Hf. destruct s as [|c s]; [done|]. simpl. by rewrite (Hf c). Qed.

Lemma rstrip_with_id p s :
  (∀ c, last_char s = Some c → p c = false) → PyStr.rstrip_with p s = s.
Proof.
  induction s as [|c s IH]; [done|]. intros Hl.
  simpl PyStr.rstrip_with. destruct s as [|d s].
  - simpl. by rewrite (Hl c).
  - rewrite IH by exact Hl. done.
Qed.

Lemma strip_with_id p s : trimmed p s → PyStr.strip_with p s = s.
Proof.
  intros [Hf Hl]. unfold PyStr.strip_with.
  rewrite lstrip_with_id by done. by apply rstrip_with_id.
Qed.

Lemma last_char_app_digits a ds c :
  ds ≠ "" → last_char (a +:+ ds) = Some c → last_char ds = Some c.
Proof.
  intros Hne. induction a as [|x a IH]; [done|].
  rewrite app_cons. simpl. destruct (a +:+ ds) eqn:Ha.
  - destruct a; [change ("" +:+ ds) with ds in Ha; congruence|].
    rewrite app_cons in Ha. discriminate.
  - exact IH.
Qed.

Lemma all_chars_last p s c :
  all_chars p s = true → last_char s = Some c → p c = true.
Proof.
  induction s as [|d s IH]; [done|]. simpl.
  intros [Hd Hs]%andb_true_iff. destruct s as [|e s].
  - by intros [= <-].
  - by apply IH.
Qed.

Lemma every_match_cons c s :
  every_match (String c s)
  = match PyStr.match_task_ref (String c s) with
    | Some (ds, _) => ds :: every_match s
    | None => every_match s
    end.
Proof. reflexivity. Qed.

(** X7: every number the parser reads from a Preconditions field is
    non-negative. *)
Theorem parsed_preconditions_nonnegative (field : option string) (n : Z) :
  n ∈ parse_preconditions field → (0 ≤ n)%Z.
Proof.
  unfold parse_preconditions. case_decide; [|by intros ?%elem_of_nil].
  rewrite findall_every_match.
  change (map PyStr.int ?l) with (PyStr.int <$> l).
  intros (ds & -> & (pre & ws & rest & _ & _ & _ & _ & Hdg & _)%every_match_iff)
    %list_elem_of_fmap.
  by apply int_acc_nonneg.
Qed.

Lemma parsed_preconditions_nonnegative_witness :
  7%Z ∈ parse_preconditions (Some "Task 7, Task 12") ∧ (0 ≤ 7)%Z.
Proof.
  assert (7%Z ∈ parse_preconditions (Some "Task 7, Task 12")) as H
    by (vm_compute; left).
  split; [exact H|].
  exact (parsed_preconditions_nonnegative (Some "Task 7, Task 12") 7 H).
Defined.

Lemma task_reference_round_trip (k : Z) :
  (0 ≤ k)%Z →
  parse_preconditions (Some ("Task " +:+ pretty k)) = [k].
Proof.
  intros Hk. destruct (pretty_Z_digits k Hk) as (Hne & Hall & Hint).
  unfold parse_preconditions.
  assert (PyStr.strip ("Task " +:+ pretty k) = "Task " +:+ pretty k) as ->.
  { apply strip_with_id. split.
    - by intros c [= <-].
    - intros c Hc. apply last_char_app_digits in Hc; [|done].
      apply digit_not_space. by apply (all_chars_last _ (pretty k)). }
  rewrite decide_True by done.
  rewrite findall_every_match.
  assert (PyStr.match_task_ref ("Task " +:+ pretty k) = Some (pretty k, ""))
    as Hm.
  { apply match_task_ref_iff. exists " ". split.
    - assert (pretty k +:+ "" = pretty k) as ->; [|done].
      generalize (pretty k). clear. intros s.
      induction s as [|c s IH]; [done|]. by rewrite app_cons, IH.
    - by repeat split. }
  assert (∀ s, s +:+ "" = s) as Hnil.
  { clear. intros s. induction s as [|c s IH]; [done|]. by rewrite app_cons, IH. }
  assert (every_match ("ask " +:+ pretty k) = []) as Hrest.
  { rewrite <- (Hnil ("ask " +:+ pretty k)).
    rewrite every_match_skip; [done|].
    rewrite count_char_app, (class_without_T PyStr.isdigit (pretty k)); done. }
  change ("Task " +:+ pretty k) with (String "T" ("ask " +:+ pretty k)) in *.
  rewrite every_match_cons, Hm, Hrest. simpl. by rewrite Hint.
Qed.

(** X8: the text "Task k" (the word, one space, the decimal numeral of a
    non-negative [k]), which is how the plan generators write a dependency,
    is read back by the parser as the single precondition [k]. *)
Theorem written_reference_reads_back (k : Z) :
  (0 ≤ k)%Z →
  parse_preconditions (Some ("Task " +:+ pretty k)) = [k].
Proof. apply task_reference_round_trip. Qed.

(** The dependency of a generated second-to-last task, "Task 41". *)
Lemma written_reference_reads_back_witness :
  parse_preconditions (Some ("Task " +:+ pretty 41%Z)) = [41%Z].
Proof. apply (written_reference_reads_back 41). lia. Defined.

(** * Lemmas on the plan generator *)

Lemma layer_tasks_spec l : ∀ k,
  (0 ≤ k)%Z →
  (Decompose.layer_tasks k l).2 = (k + Z.of_nat (length l))%Z ∧
  length (Decompose.layer_tasks k l).1 = length l ∧
  (∀ i a, (Decompose.layer_tasks k l).1 !! i = Some a →
          Decompose.num a = (k + Z.of_nat i + 1)%Z) ∧
  Forall chained (Decompose.layer_tasks k l).1 ∧
  map Decompose.title (Decompose.layer_tasks k l).1
  = map (λ layer, "Implement " +:+ layer +:+ " layer") l.
Proof.
  induction l as [|layer l IH]; intros k Hk.
  - simpl. split; [lia|]. split; [done|]. split; [|split; [constructor|done]].
    intros i a Hi. by destruct i.
  - simpl Decompose.layer_tasks.
    destruct (IH (k + 1)%Z ltac:(lia)) as (Hn & Hlen & Hnum & Hch & Htitle).
    destruct (Decompose.layer_tasks (k + 1) l) as [ts n]. simpl in *.
    split; [lia|]. split; [by rewrite Hlen|]. split; [|split].
    + intros [|i] a Ha; simpl in Ha.
      * injection Ha as <-. simpl. lia.
      * rewrite (Hnum i a Ha). lia.
    + constructor; [|done]. split; simpl; [lia|done].
    + by rewrite Htitle.
Qed.

Ltac chained_list :=
  simpl; repeat (constructor; [split; simpl; [lia|done]|]); constructor.

Lemma generated_tasks_chained data :
  Forall chained (Decompose.generate_tasks data).1.
Proof.
  unfold Decompose.generate_tasks. cbv zeta.
  repeat case_decide.
  - destruct (layer_tasks_spec
                (Decompose.sorted_by_key Decompose.layer_key
                   (default [] (Decompose.layers data))) 0 ltac:(done))
      as (Hn & Hlen & _ & Hch & _).
    destruct (Decompose.layer_tasks _ _) as [[|a ts] n]; simpl in *.
    + assert (n = 0%Z) as -> by lia. chained_list.
    + done.
  - chained_list.
  - chained_list.
  - chained_list.
Qed.

Lemma generate_tasks_spec (data : Decompose.ObjectiveData) :
  ∃ tasks task_num,
    Decompose.generate_tasks data = (tasks, task_num) ∧
    tasks ≠ [] ∧
    task_num = Z.of_nat (length tasks) ∧
    (∀ i a, tasks !! i = Some a → Decompose.num a = (Z.of_nat i + 1)%Z) ∧
    length tasks =
      let strategy := default "layer-based" (Decompose.strategy data) in
      let layers := default [] (Decompose.layers data) in
      if decide (strategy = "layer-based") then Nat.max 1 (length layers)
      else if decide (strategy = "feature-first") then 2
      else if decide (strategy = "migration") then 3
      else 1.
Proof.
  unfold Decompose.generate_tasks. cbv zeta.
  repeat case_decide.
  - set (ordered := Decompose.sorted_by_key Decompose.layer_key
                      (default [] (Decompose.layers data))).
    assert (length ordered = length (default [] (Decompose.layers data)))
      as Hperm.
    { unfold ordered. generalize (default [] (Decompose.layers data)).
      intros l. induction l as [|x l IH]; [done|]. simpl. rewrite <- IH.
      generalize (Decompose.sorted_by_key Decompose.layer_key l). intros s.
      induction s as [|y s IHs]; [done|]. simpl. case_decide; [done|].
      simpl. by rewrite IHs. }
    destruct (layer_tasks_spec ordered 0 ltac:(done))
      as (Hn & Hlen & Hnum & _ & _).
    destruct (Decompose.layer_tasks 0 ordered) as [[|a ts] n] eqn:Hl;
      simpl in *.
    + assert (n = 0%Z) as -> by lia.
      eexists _, _. split; [done|]. split; [done|]. split; [done|].
      split; [|simpl; lia]. intros [|i] b; [|done]. by intros [= <-].
    + eexists _, _. split; [done|]. split; [done|]. split; [simpl; lia|].
      split; [|simpl; lia]. intros i b Hb. rewrite (Hnum i b Hb). lia.
  - eexists _, _. split; [done|]. split; [done|]. split; [done|].
    split; [|done]. intros [|[|i]] b; [| |done]; by intros [= <-].
  - eexists _, _. split; [done|]. split; [done|]. split; [done|].
    split; [|done]. intros [|[|[|i]]] b; [| | |done]; by intros [= <-].
  - eexists _, _. split; [done|]. split; [done|]. split; [done|].
    split; [|done]. intros [|i] b; [|done]. by intros [= <-].
Qed.

(** X9: the generator always produces at least one task; the counter it
    prints as "Total tasks" is the number of tasks produced; the tasks are
    numbered 1, 2, 3, ... in the order they are written; and there is one task
    per layer for the layer-based strategy with layers, two for
    feature-first, three for migration and one in every other case. *)
Theorem generated_tasks_are_numbered (data : Decompose.ObjectiveData) :
  ∃ tasks task_num,
    Decompose.generate_tasks data = (tasks, task_num) ∧
    tasks ≠ [] ∧
    task_num = Z.of_nat (length tasks) ∧
    (∀ i a, tasks !! i = Some a → Decompose.num a = (Z.of_nat i + 1)%Z) ∧
    length tasks =
      let strategy := default "layer-based" (Decompose.strategy data) in
      let layers := default [] (Decompose.layers data) in
      if decide (strategy = "layer-based") then Nat.max 1 (length layers)
      else if decide (strategy = "feature-first") then 2
      else if decide (strategy = "migration") then 3
      else 1.
Proof. apply generate_tasks_spec. Qed.

Lemma chained_reads_back a :
  chained a →
  parse_preconditions (Some (Decompose.preconditions a))
  = if decide (Decompose.num a = 1%Z) then [] else [(Decompose.num a - 1)%Z].
Proof.
  intros [Hnum ->]. destruct (decide (1 < Decompose.num a)%Z) as [Hlt|Hle].
  - rewrite decide_False by lia. apply task_reference_round_trip. lia.
  - by rewrite decide_True by lia.
Qed.

Lemma generated_dependencies_full
    (data : Decompose.ObjectiveData) (a : Decompose.TaskFields) :
  a ∈ (Decompose.generate_tasks data).1 →
  parse_preconditions (Some (Decompose.preconditions a))
  = (if decide (Decompose.num a = 1%Z) then [] else [(Decompose.num a - 1)%Z]) ∧
  ∀ dep, dep ∈ parse_preconditions (Some (Decompose.preconditions a)) →
         (dep < Decompose.num a)%Z ∧
         ∃ b, b ∈ (Decompose.generate_tasks data).1 ∧ Decompose.num b = dep.
Proof.
  intros Ha.
  pose proof (generated_tasks_chained data) as Hch.
  rewrite Forall_forall in Hch. specialize (Hch a Ha).
  rewrite (chained_reads_back a Hch). split; [done|].
  destruct (generate_tasks_spec data) as (tasks & n & Hgen & _ & _ & Hnum & _).
  rewrite Hgen in *. simpl in *.
  intros dep Hdep. destruct Hch as [H1 _].
  case_decide; [by apply elem_of_nil in Hdep|].
  apply list_elem_of_singleton in Hdep as ->. split; [lia|].
  apply list_elem_of_lookup in Ha as (i & Hi).
  pose proof (Hnum i a Hi) as Hai.
  destruct i as [|i]; [lia|].
  destruct (tasks !! i) as [b|] eqn:Hb.
  - exists b. split; [by eapply list_elem_of_lookup_2|].
    rewrite (Hnum i b Hb). lia.
  - apply lookup_ge_None in Hb. apply lookup_lt_Some in Hi. lia.
Qed.

Lemma generated_dependencies_aux data a dep :
  a ∈ (Decompose.generate_tasks data).1 →
  dep ∈ parse_preconditions (Some (Decompose.preconditions a)) →
  (dep < Decompose.num a)%Z ∧
  ∃ b, b ∈ (Decompose.generate_tasks data).1 ∧ Decompose.num b = dep.
Proof.
  intros Ha. by apply (generated_dependencies_full data a Ha).
Qed.

(** X10: the Preconditions text the generator writes for a task is read back
    by the validator's parser as no precondition for the task numbered 1 and
    as exactly the previous number for every other task; so every dependency
    it reads refers to a task that the generated plan contains and that comes
    earlier in it. *)
Theorem generated_dependencies_read_back
    (data : Decompose.ObjectiveData) (a : Decompose.TaskFields) :
  a ∈ (Decompose.generate_tasks data).1 →
  parse_preconditions (Some (Decompose.preconditions a))
  = (if decide (Decompose.num a = 1%Z) then [] else [(Decompose.num a - 1)%Z]) ∧
  ∀ dep, dep ∈ parse_preconditions (Some (Decompose.preconditions a)) →
         (dep < Decompose.num a)%Z ∧
         ∃ b, b ∈ (Decompose.generate_tasks data).1 ∧ Decompose.num b = dep.
Proof. apply generated_dependencies_full. Qed.

(** A layer-based plan of three layers, the second task of it. *)
Lemma generated_dependencies_read_back_witness :
  parse_preconditions (Some "Task 1") = [1%Z].
Proof.
  apply (generated_dependencies_read_back
           (Decompose.mkObjective None None (Some ["model"; "schema"; "router"])
              None None)
           (Decompose.mkFields 2 "Implement schema layer"
              "`app/schemas/` or `src/schemas/`" "Task 1"
              ("  1. Create/update schema implementation" +:+ Decompose.nl
                 +:+ "  2. Follow project conventions")
              "Tests for schema pass" "small" "must be sequential")).
  vm_compute. right. left.
Defined.

(** ** The order of the layers *)

Lemma insert_by_key_perm {A} (key : A → nat) x l :
  Decompose.insert_by_key key x l ≡ₚ x :: l.
Proof.
  induction l as [|y l IH]; simpl; [done|].
  case_decide; [done|]. rewrite IH. apply Permutation_swap.
Qed.

Lemma sorted_by_key_perm {A} (key : A → nat) l :
  Decompose.sorted_by_key key l ≡ₚ l.
Proof.
  induction l as [|x l IH]; simpl; [done|].
  by rewrite insert_by_key_perm, IH.
Qed.

Lemma insert_by_key_filter {A} (key : A → nat) (k : nat) x l :
  filter (λ y, key y = k) (Decompose.insert_by_key key x l)
  = filter (λ y, key y = k) (x :: l).
Proof.
  induction l as [|y l IH]; simpl; [done|].
  case_decide as Hle; [done|].
  rewrite (filter_cons _ y), IH, !filter_cons.
  destruct (decide (key y = k)), (decide (key x = k)); try done. lia.
Qed.

Lemma sorted_by_key_filter {A} (key : A → nat) (k : nat) l :
  filter (λ y, key y = k) (Decompose.sorted_by_key key l)
  = filter (λ y, key y = k) l.
Proof.
  induction l as [|x l IH]; simpl; [done|].
  by rewrite insert_by_key_filter, !filter_cons, IH.
Qed.

Lemma insert_by_key_sorted {A} (key : A → nat) x l :
  nondecreasing key l → nondecreasing key (Decompose.insert_by_key key x l).
Proof.
  induction l as [|y l IH]; simpl.
  - done.
  - intros [Hy Hs]. case_decide as Hle.
    + split; [|done]. constructor; [done|].
      eapply Forall_impl; [exact Hy|]. intros z Hz. simpl in Hz. lia.
    + split; [|by apply IH].
      rewrite insert_by_key_perm. constructor; [lia|done].
Qed.

Lemma sorted_by_key_sorted {A} (key : A → nat) l :
  nondecreasing key (Decompose.sorted_by_key key l).
Proof.
  induction l as [|x l IH]; simpl; [done|]. by apply insert_by_key_sorted.
Qed.

Lemma nondecreasing_lookup {A} (key : A → nat) l :
  nondecreasing key l →
  ∀ i j x y, i < j → l !! i = Some x → l !! j = Some y → key x ≤ key y.
Proof.
  induction l as [|z l IH]; intros Hs i j x y Hij Hx Hy; [by destruct i|].
  destruct Hs as [Hz Hs]. destruct j as [|j]; [lia|]. simpl in Hy.
  destruct i as [|i]; simpl in Hx.
  - injection Hx as <-. rewrite Forall_forall in Hz.
    apply Hz. by eapply list_elem_of_lookup_2.
  - apply (IH Hs i j); [lia|done|done].
Qed.

Lemma layer_key_known x :
  Decompose.layer_key x < 99 ↔ x ∈ Decompose.layer_order.
Proof.
  unfold Decompose.layer_key.
  destruct (list_find (λ y, y = x) Decompose.layer_order) as [[i y]|] eqn:Hf.
  - apply list_find_Some in Hf as (Hi & -> & _). split.
    + intros _. by eapply list_elem_of_lookup_2.
    + intros _. apply lookup_lt_Some in Hi. simpl in Hi. lia.
  - apply list_find_None in Hf. rewrite Forall_forall in Hf. split; [lia|].
    intros Hx. by destruct (Hf x Hx).
Qed.

(** X11: for the layer-based strategy the tasks are written one per layer in
    the order [sorted] gives the layers: the same layers as in the input,
    never decreasing in their position in [layer_order], the layers that
    table does not know after all the known ones, and layers of equal
    position in their input order. *)
Theorem layers_are_ordered (data : Decompose.ObjectiveData) :
  let layers := default [] (Decompose.layers data) in
  let ordered := Decompose.sorted_by_key Decompose.layer_key layers in
  ordered ≡ₚ layers ∧
  (∀ i j x y, i < j → ordered !! i = Some x → ordered !! j = Some y →
              Decompose.layer_key x ≤ Decompose.layer_key y) ∧
  (∀ i j x y, ordered !! i = Some x → ordered !! j = Some y →
              x ∈ Decompose.layer_order → y ∉ Decompose.layer_order → i < j) ∧
  (∀ k, filter (λ x, Decompose.layer_key x = k) ordered
        = filter (λ x, Decompose.layer_key x = k) layers) ∧
  (default "layer-based" (Decompose.strategy data) = "layer-based" →
   layers ≠ [] →
   map Decompose.title (Decompose.generate_tasks data).1
   = map (λ layer, "Implement " +:+ layer +:+ " layer") ordered).
Proof.
  intros layers ordered.
  assert (∀ i j x y, i < j → ordered !! i = Some x → ordered !! j = Some y →
              Decompose.layer_key x ≤ Decompose.layer_key y) as Hsorted.
  { intros i j x y Hij Hx Hy.
    pose proof (sorted_by_key_sorted Decompose.layer_key layers) as Hs.
    fold ordered in Hs. by apply (nondecreasing_lookup _ _ Hs i j). }
  split; [apply sorted_by_key_perm|]. split; [done|]. split; [|split].
  - intros i j x y Hx Hy Hkx%layer_key_known Hky.
    assert (¬ Decompose.layer_key y < 99) as Hge by (by rewrite layer_key_known).
    destruct (decide (i < j)) as [|Hji]; [done|].
    destruct (decide (i = j)) as [->|Hne]; [congruence|].
    pose proof (Hsorted j i y x ltac:(lia) Hy Hx). lia.
  - intros k. apply sorted_by_key_filter.
  - intros Hstrat Hne. unfold Decompose.generate_tasks. cbv zeta.
    rewrite decide_True by done. fold layers. fold ordered.
    destruct (layer_tasks_spec ordered 0 ltac:(done))
      as (_ & Hlen & _ & _ & Htitle).
    destruct (Decompose.layer_tasks 0 ordered) as [[|a ts] n]; [|done].
    simpl in Hlen.
    assert (length ordered = length layers) as Hl
      by (apply Permutation_length, sorted_by_key_perm).
    destruct layers; [done|]. simpl in Hl. lia.
Qed.

(** ** Generated plans and the validator *)

Lemma last_char_app a b : b ≠ "" → last_char (a +:+ b) = last_char b.
Proof.
  intros Hb. induction a as [|c a IH]; [done|].
  rewrite app_cons. simpl. destruct (a +:+ b) eqn:Hab; [|done].
  destruct a; [by change ("" +:+ b) with b in Hab|].
  rewrite app_cons in Hab. discriminate.
Qed.

Lemma app_nonempty_r a b : b ≠ "" → a +:+ b ≠ "".
Proof.
  intros Hb. destruct a; [done|]. by rewrite app_cons.
Qed.

Lemma strip_nonempty s c :
  first_char s = Some c → PyStr.isspace c = false → PyStr.strip s ≠ "".
Proof.
  intros Hf Hc He. apply strip_with_empty in He.
  destruct s as [|d s]; [done|]. injection Hf as ->.
  simpl in He. by rewrite Hc in He.
Qed.

Lemma layer_files_count layer :
  length (parse_files (Some ("`app/" +:+ layer +:+ "s/` or `src/" +:+ layer
                               +:+ "s/`")))
  = S (2 * count_char "," layer).
Proof.
  set (f := "`app/" +:+ layer +:+ "s/` or `src/" +:+ layer +:+ "s/`").
  assert (PyStr.strip f = f) as Hstrip.
  { apply strip_with_id. split.
    - by intros c [= <-].
    - intros c. unfold f.
      rewrite !last_char_app by (repeat apply app_nonempty_r; done).
      by intros [= <-]. }
  unfold parse_files. rewrite Hstrip.
  rewrite decide_False by done.
  rewrite length_map, split_length. unfold f.
  rewrite !count_char_app. simpl. lia.
Qed.

Lemma layer_tasks_fields_ok l : ∀ k,
  Forall (λ layer, count_char "," layer ≤ 1) l →
  Forall fields_ok (Decompose.layer_tasks k l).1.
Proof.
  induction l as [|layer l IH]; intros k Hl; [constructor|].
  apply Forall_cons in Hl as [Hc Hl]. simpl Decompose.layer_tasks.
  specialize (IH (k + 1)%Z Hl).
  destruct (Decompose.layer_tasks (k + 1) l) as [ts n]. simpl in *.
  constructor; [|done]. split; [|split]; simpl.
  - rewrite layer_files_count. lia.
  - by apply (strip_nonempty _ "T").
  - done.
Qed.

Lemma generated_fields_ok data :
  Forall (λ layer, count_char "," layer ≤ 1)
         (default [] (Decompose.layers data)) →
  Forall fields_ok (Decompose.generate_tasks data).1.
Proof.
  intros Hl. unfold Decompose.generate_tasks. cbv zeta.
  repeat case_decide.
  - pose proof (layer_tasks_fields_ok
                  (Decompose.sorted_by_key Decompose.layer_key
                     (default [] (Decompose.layers data))) 0) as Hok.
    assert (Forall (λ layer, count_char "," layer ≤ 1)
              (Decompose.sorted_by_key Decompose.layer_key
                 (default [] (Decompose.layers data)))) as Hs
      by (by rewrite sorted_by_key_perm).
    specialize (Hok Hs).
    destruct (Decompose.layer_tasks _ _) as [[|a ts] n]; simpl in *; [|done].
    repeat constructor; by vm_compute.
  - simpl. repeat constructor; by vm_compute.
  - simpl. repeat constructor; by vm_compute.
  - simpl. repeat constructor; by vm_compute.
Qed.

Lemma reads_parse a m :
  reads a m →
  num (parse_task m) = Decompose.num a ∧
  file_count (parse_task m) = length (parse_files (Some (Decompose.files a))) ∧
  preconditions (parse_task m)
  = parse_preconditions (Some (Decompose.preconditions a)) ∧
  done_when (parse_task m) = PyStr.strip (Decompose.done_when a) ∧
  complexity (parse_task m) = PyStr.lower (Decompose.complexity a).
Proof.
  intros (Hn & Hf & Hp & Hd & Hc). simpl. by rewrite Hn, Hf, Hp, Hd, Hc.
Qed.

(** X12: a plan the generator writes passes the validator, provided the
    validator's field searches return the texts as written and no layer name
    holds more than one comma: no error finding, [passed] true. *)
Theorem generated_plan_passes
    (order : list string) (data : Decompose.ObjectiveData)
    (ms : list BlockMatch) :
  Forall2 reads (Decompose.generate_tasks data).1 ms →
  Forall (λ layer, count_char "," layer ≤ 1)
         (default [] (Decompose.layers data)) →
  ∃ r, validate_tasks order (parse_task_plan ms) = Ok r ∧
       passed r = true ∧ issues r = [].
Proof.
  intros Hreads Hcommas.
  set (gen := (Decompose.generate_tasks data).1) in *.
  pose proof (generated_fields_ok data Hcommas) as Hok. fold gen in Hok.
  pose proof (generated_tasks_chained data) as Hch. fold gen in Hch.
  destruct (generate_tasks_spec data) as (tasks & n & Hgen & _ & _ & Hnum & _).
  assert (gen = tasks) as Hgt by (unfold gen; by rewrite Hgen). clear Hgen.
  rewrite <- Hgt in Hnum. clear Hgt tasks.
  assert (∀ t, t ∈ parse_task_plan ms →
               ∃ a m, a ∈ gen ∧ reads a m ∧ t = parse_task m) as Hback.
  { intros t (m & -> & Hm)%list_elem_of_fmap.
    apply list_elem_of_lookup in Hm as (i & Hi).
    destruct (Forall2_lookup_r _ _ _ _ _ Hreads Hi) as (a & Ha & Hr).
    exists a, m. split; [by eapply list_elem_of_lookup_2|done]. }
  assert (∀ a, a ∈ gen → Decompose.num a ∈ task_numbers (parse_task_plan ms))
    as Hnums.
  { intros a (i & Hi)%list_elem_of_lookup.
    destruct (Forall2_lookup_l _ _ _ _ _ Hreads Hi) as (m & Hm & Hr).
    unfold task_numbers. rewrite elem_of_list_to_set.
    apply list_elem_of_fmap. exists (parse_task m).
    split; [by destruct (reads_parse a m Hr) as [-> _]|].
    apply list_elem_of_fmap. exists m. split; [done|].
    by eapply list_elem_of_lookup_2. }
  assert (∀ a dep, a ∈ gen →
            dep ∈ parse_preconditions (Some (Decompose.preconditions a)) →
            (dep < Decompose.num a)%Z ∧ ∃ b, b ∈ gen ∧ Decompose.num b = dep)
    as Hdeps.
  { intros a dep Ha. by apply (generated_dependencies_aux data). }
  destruct (passed_iff order (parse_task_plan ms)) as (r & Hr & Hpass).
  assert (passed r = true) as Hp.
  { apply Hpass. split.
    - intros t (a & m & Ha & Hrd & ->)%Hback.
      destruct (reads_parse a m Hrd) as (_ & Hfc & Hpre & Hdw & Hcx).
      rewrite Forall_forall in Hok. destruct (Hok a Ha) as (Hf & Hd & Hc).
      split; [by rewrite Hfc|]. split; [by rewrite Hdw|].
      split; [by rewrite Hcx|]. rewrite Hpre. intros dep Hdep.
      destruct (Hdeps a dep Ha Hdep) as (_ & b & Hb & <-). by apply Hnums.
    - apply (descends_no_cycle _ (λ x, x)).
      intros v d (t & (a & m & Ha & Hrd & ->)%Hback & <- & Hd)%build_graph_get.
      destruct (reads_parse a m Hrd) as (Hn & _ & Hpre & _).
      rewrite Hpre in Hd. rewrite Hn. by apply (Hdeps a d Ha). }
  exists r. split; [done|]. split; [done|].
  destruct (validate_tasks_eq order (parse_task_plan ms)) as (cs & _ & _ & Hr').
  rewrite Hr in Hr'. injection Hr' as ->. simpl in *.
  apply bool_decide_eq_true in Hp. by apply length_zero_iff_nil.
Qed.

(** The feature-first plan for "Search", read back field by field. *)
Lemma generated_plan_passes_witness :
  ∃ r, validate_tasks std_order (parse_task_plan search_blocks) = Ok r ∧
       passed r = true ∧ issues r = [].
Proof.
  apply (generated_plan_passes std_order search_objective search_blocks).
  - repeat constructor.
  - constructor.
Defined.

(** ** The progress file *)

(** X13: the "Next Up" section of the progress file reads "(none)" for a plan
    of at most one task, and never lists a task beyond Task 5: for five tasks
    or more it lists Task 2 to Task 5, whatever the total. *)
Theorem progress_lists_at_most_four (date text title : string) (total : Z) :
  ((total ≤ 1)%Z →
   Decompose.generate_progress date text title total
   = Decompose.PROGRESS_TEMPLATE_format date title "(none)") ∧
  ((5 ≤ total)%Z →
   Decompose.generate_progress date text title total
   = Decompose.PROGRESS_TEMPLATE_format date title
       ("- [ ] Task 2" +:+ Decompose.nl +:+ "- [ ] Task 3" +:+ Decompose.nl
        +:+ "- [ ] Task 4" +:+ Decompose.nl +:+ "- [ ] Task 5"
        +:+ Decompose.nl)) ∧
  ((1 < total)%Z →
   Decompose.next_up_lines total ≠ "" ∧
   length (Decompose.range 2 (Z.min (total + 1) 6))
   = Z.to_nat (Z.min total 5 - 1)).
Proof.
  unfold Decompose.generate_progress, Decompose.next_up_lines. split; [|split].
  - intros Hle. unfold Decompose.range.
    replace (Z.to_nat (Z.min (total + 1) 6 - 2)) with 0 by lia. done.
  - intros Hge. replace (Z.min (total + 1) 6) with 6%Z by lia. done.
  - intros Hgt. split.
    + unfold Decompose.range.
      destruct (Z.to_nat (Z.min (total + 1) 6 - 2)) as [|k] eqn:Hk; [lia|].
      simpl. generalize (map (λ i, (2 + Z.of_nat i)%Z) (seq 1 k)).
      assert (∀ (l : list Z) s, s ≠ "" →
                fold_left (λ next_up i,
                    next_up +:+ "- [ ] Task " +:+ pretty i +:+ Decompose.nl)
                  l s ≠ "") as Hfold.
      { induction l as [|i l IH]; intros s Hs; [done|]. simpl. apply IH.
        by apply app_nonempty_r. }
      intros l. by apply Hfold.
    + unfold Decompose.range. rewrite length_map, length_seq. lia.
Qed.

(** * Lemmas on the report *)

Lemma report_lines_eq date v path :
  report_lines date v path
  = ["# Task Plan Validation Report"; "";
     "**File:** " +:+ path; "**Date:** " +:+ date;
     "**Status:** " +:+ (if passed v then "PASS" else "FAIL");
     "**Tasks:** " +:+ pretty (total_tasks v);
     "**Errors:** " +:+ pretty (errors v);
     "**Warnings:** " +:+ pretty (warnings v); ""]
    ++ (if decide (issues v = []) then []
        else ["## Errors"; ""]
             ++ map (λ f, "- **[" +:+ rule f +:+ "]** " +:+ message f) (issues v)
             ++ [""])
    ++ (if decide (warnings_list v = []) then []
        else ["## Warnings"; ""]
             ++ map (λ f, "- **[" +:+ rule f +:+ "]** " +:+ message f)
                    (warnings_list v)
             ++ [""])
    ++ (if passed v && bool_decide (warnings_list v = [])
        then ["All tasks pass validation rules."; ""] else []).
Proof.
  unfold report_lines. cbv zeta.
  destruct (issues v) as [|i iss], (warnings_list v) as [|w wss],
    (passed v); simpl; rewrite ?app_nil_r, <- ?app_assoc; try done.
Qed.

Lemma bullet_line f :
  is_bullet ("- **[" +:+ rule f +:+ "]** " +:+ message f).
Proof. by eexists. Qed.

Lemma filter_bullets_findings (l : list Finding) :
  filter is_bullet (map (λ f, "- **[" +:+ rule f +:+ "]** " +:+ message f) l)
  = map (λ f, "- **[" +:+ rule f +:+ "]** " +:+ message f) l.
Proof.
  apply filter_all, Forall_fmap, Forall_true. intros f. apply bullet_line.
Qed.

Lemma iff_True_intro (P : Prop) : P → P ↔ True.
Proof. tauto. Qed.

Lemma iff_False_intro (P : Prop) : ¬ P → P ↔ False.
Proof. tauto. Qed.

(** Settles the equations between closed terms of a goal. *)
Ltac settle_equations :=
  repeat match goal with
  | |- context [?a = ?b] =>
      first [ rewrite (iff_True_intro (a = b)) by reflexivity
            | rewrite (iff_False_intro (a = b))
                by (let H := fresh in intros H; vm_compute in H; discriminate) ]
  end.

Ltac not_bullet :=
  let H := fresh in intros [? H]; vm_compute in H; discriminate.

(** X14: in the report of a validation result the status line says PASS
    exactly when there is no Errors section, the closing line "All tasks pass
    validation rules." appears exactly when there is no finding at all, and
    the lines that list a finding are, in order, the errors and then the
    warnings, one line each. *)
Theorem report_agrees_with_result
    (date path : string) (order : list string) (tasks : list Task) :
  ∃ r, validate_tasks order tasks = Ok r ∧
       let lines := report_lines date r path in
       ("**Status:** PASS" ∈ lines ↔ "## Errors" ∉ lines) ∧
       ("**Status:** FAIL" ∈ lines ↔ "## Errors" ∈ lines) ∧
       ("## Errors" ∈ lines ↔ issues r ≠ []) ∧
       ("All tasks pass validation rules." ∈ lines ↔
          issues r = [] ∧ warnings_list r = []) ∧
       filter is_bullet lines
       = map (λ f, "- **[" +:+ rule f +:+ "]** " +:+ message f)
             (issues r ++ warnings_list r).
Proof.
  destruct (validate_tasks_eq order tasks) as (cs & _ & _ & Hr).
  eexists. split; [exact Hr|]. cbv zeta.
  set (r := mkResult _ _ _ _ _ _).
  assert (passed r = bool_decide (issues r = [])) as Hp.
  { simpl. apply bool_decide_ext. by rewrite length_zero_iff_nil. }
  rewrite report_lines_eq, Hp.
  generalize (issues r) (warnings_list r) (total_tasks r) (errors r)
    (warnings r). clear. intros iss wss nt ne nw.
  set (bullets := map (λ f, "- **[" +:+ rule f +:+ "]** " +:+ message f)).
  assert (∀ l s, ¬ is_bullet s → s ∉ bullets l) as Hb.
  { intros l s Hs (f & -> & _)%list_elem_of_fmap. apply Hs, bullet_line. }
  assert (∀ s, s ∈ ["**Status:** PASS"; "**Status:** FAIL"; "## Errors";
                    "All tasks pass validation rules."] →
               s ≠ "**File:** " +:+ path ∧ s ≠ "**Date:** " +:+ date ∧
               s ≠ "**Tasks:** " +:+ pretty nt ∧
               s ≠ "**Errors:** " +:+ pretty ne ∧
               s ≠ "**Warnings:** " +:+ pretty nw ∧ ¬ is_bullet s) as Hfix.
  { intros s Hs.
    assert (String.get 2 s ∈ [Some "S"; Some " "; Some "l"]%char
            ∧ ¬ is_bullet s) as [Hget Hnb].
    { repeat (apply elem_of_cons in Hs as [->|Hs];
              [split; [vm_compute; set_solver|not_bullet]|]).
      by apply elem_of_nil in Hs. }
    repeat split; try done; intros ->;
      repeat (apply elem_of_cons in Hget as [Hget|Hget];
              [vm_compute in Hget; discriminate|]);
      by apply elem_of_nil in Hget. }
  destruct (Hfix "**Status:** PASS") as (P1 & P2 & P3 & P4 & P5 & P6);
    [set_solver|].
  destruct (Hfix "**Status:** FAIL") as (Q1 & Q2 & Q3 & Q4 & Q5 & Q6);
    [set_solver|].
  destruct (Hfix "## Errors") as (E1 & E2 & E3 & E4 & E5 & E6); [set_solver|].
  destruct (Hfix "All tasks pass validation rules.")
    as (A1 & A2 & A3 & A4 & A5 & A6); [set_solver|].
  clear Hfix.
  assert (∀ l, filter is_bullet (bullets l) = bullets l) as Hfb
    by apply filter_bullets_findings.
  assert (filter is_bullet
            ["# Task Plan Validation Report"; "";
             "**File:** " +:+ path; "**Date:** " +:+ date;
             "**Status:** " +:+ (if bool_decide (iss = []) then "PASS" else "FAIL");
             "**Tasks:** " +:+ pretty nt; "**Errors:** " +:+ pretty ne;
             "**Warnings:** " +:+ pretty nw; ""] = []) as Hhead.
  { apply filter_none. repeat constructor; not_bullet. }
  assert (filter is_bullet ["## Errors"; ""] = []) as G1 by reflexivity.
  assert (filter is_bullet ["## Warnings"; ""] = []) as G2 by reflexivity.
  assert (filter is_bullet [""] = []) as G3 by reflexivity.
  assert (filter is_bullet ["All tasks pass validation rules."; ""] = [])
    as G4 by reflexivity.
  assert (∀ s, s ≠ "**File:** " +:+ path → s ≠ "**Date:** " +:+ date →
               s ≠ "**Tasks:** " +:+ pretty nt →
               s ≠ "**Errors:** " +:+ pretty ne →
               s ≠ "**Warnings:** " +:+ pretty nw → ¬ is_bullet s →
               s ∈ (["# Task Plan Validation Report"; "";
                     "**File:** " +:+ path; "**Date:** " +:+ date;
                     "**Status:** "
                       +:+ (if bool_decide (iss = []) then "PASS" else "FAIL");
                     "**Tasks:** " +:+ pretty nt; "**Errors:** " +:+ pretty ne;
                     "**Warnings:** " +:+ pretty nw; ""]
                    ++ (if decide (iss = []) then []
                        else ["## Errors"; ""] ++ bullets iss ++ [""])
                    ++ (if decide (wss = []) then []
                        else ["## Warnings"; ""] ++ bullets wss ++ [""])
                    ++ (if bool_decide (iss = []) && bool_decide (wss = [])
                        then ["All tasks pass validation rules."; ""] else []))
               ↔ s ∈ ["# Task Plan Validation Report"; "";
                      "**Status:** "
                        +:+ (if bool_decide (iss = []) then "PASS" else "FAIL")]
                 ∨ (iss ≠ [] ∧ s ∈ ["## Errors"; ""])
                 ∨ (wss ≠ [] ∧ s ∈ ["## Warnings"; ""])
                 ∨ (iss = [] ∧ wss = [] ∧
                    s ∈ ["All tasks pass validation rules."; ""])) as Hmem.
  { intros s H1 H2 H3 H4 H5 H6.
    pose proof (Hb iss s H6). pose proof (Hb wss s H6).
    clear -H H0 H1 H2 H3 H4 H5.
    destruct iss as [|i iss], wss as [|w wss];
      repeat (rewrite ?decide_True, ?decide_False, ?bool_decide_eq_true_2,
                ?bool_decide_eq_false_2 by done; cbn [andb]);
      rewrite ?app_nil_r, ?elem_of_app, ?elem_of_cons, ?elem_of_nil;
      intuition congruence. }
  rewrite (Hmem _ P1 P2 P3 P4 P5 P6), (Hmem _ Q1 Q2 Q3 Q4 Q5 Q6),
    !(Hmem _ E1 E2 E3 E4 E5 E6), (Hmem _ A1 A2 A3 A4 A5 A6).
  clear -Hfb Hhead G1 G2 G3 G4.
  split; [|split; [|split; [|split]]].
  5:{ unfold bullets in *. rewrite map_app.
      destruct iss as [|i iss], wss as [|w wss];
        cbn [bool_decide decide_rel andb];
        repeat (rewrite ?decide_True, ?decide_False, ?bool_decide_eq_true_2,
                  ?bool_decide_eq_false_2 by done; cbn [andb]);
        rewrite ?filter_app, ?Hhead, ?Hfb, ?G1, ?G2, ?G3, ?G4, ?app_nil_r;
        try done. }
  all: destruct iss as [|i iss], wss as [|w wss];
    repeat (rewrite ?bool_decide_eq_true_2, ?bool_decide_eq_false_2 by done);
    rewrite ?elem_of_cons, ?elem_of_nil; settle_equations; tauto.
Qed.

(** * Lemmas on the layer of a file path *)

Lemma contains_occurs sub s :
  PlanGenerator.contains sub s = true ↔ occurs sub s.
Proof.
  induction s as [|c s IH]; simpl.
  - destruct (PyStr.strip_prefix sub "") as [r|] eqn:Hr.
    + split; [intros _|done]. apply strip_prefix_Some in Hr.
      by exists "", r.
    + split; [done|]. intros (a & b & Hab).
      destruct a as [|? a]; [|done]. 
      change ("" +:+ sub +:+ b) with (sub +:+ b) in Hab.
      by rewrite (proj2 (strip_prefix_Some sub "" b) Hab) in Hr.
  - destruct (PyStr.strip_prefix sub (String c s)) as [r|] eqn:Hr.
    + split; [intros _|done]. apply strip_prefix_Some in Hr.
      by exists "", r.
    + rewrite IH. split.
      * intros (a & b & ->). by exists (String c a), b.
      * intros (a & b & Hab). destruct a as [|c' a].
        -- change ("" +:+ sub +:+ b) with (sub +:+ b) in Hab.
           by rewrite (proj2 (strip_prefix_Some sub _ b) Hab) in Hr.
        -- rewrite app_cons in Hab. injection Hab as -> ->. by exists a, b.
Qed.

Lemma first_layer_spec mapping filepath layer :
  NoDup mapping.*2 → "Other" ∉ mapping.*2 →
  PlanGenerator.first_layer mapping filepath = layer
  ↔ first_key_layer mapping filepath layer.
Proof.
  unfold first_key_layer.
  induction mapping as [|[key l] mapping IH]; intros Hnd Hother.
  - simpl. split.
    + intros <-. left. split; [done|]. by intros key ?%elem_of_nil.
    + intros [[-> _]|(earlier & key & later & Hm & _)]; [done|].
      by destruct earlier.
  - rewrite fmap_cons in Hnd, Hother. simpl in Hnd, Hother.
    apply NoDup_cons in Hnd as [Hl Hnd].
    apply not_elem_of_cons in Hother as [Hl' Hother].
    specialize (IH Hnd Hother). simpl.
    destruct (PlanGenerator.contains key filepath) eqn:Hc.
    + apply contains_occurs in Hc. split.
      * intros <-. right. exists [], key, mapping.
        split; [done|]. split; [done|]. by intros key' ?%elem_of_nil.
      * intros [[-> Hno]|(earlier & key' & later & Hm & Hocc & Hno)].
        -- destruct (Hno key); [|done]. apply elem_of_cons. by left.
        -- destruct earlier as [|[k0 l0] earlier]; simpl in Hm.
           ++ by injection Hm as _ ->.
           ++ injection Hm as <- <- _. destruct (Hno key); [|done].
              apply elem_of_cons. by left.
    + assert (¬ occurs key filepath) as Hnocc.
      { intros Ho%contains_occurs. by rewrite Ho in Hc. }
      rewrite IH. split.
      * intros [[-> Hno]|(earlier & key' & later & -> & Hocc & Hno)].
        -- left. split; [done|]. intros k.
           intros [->|?]%elem_of_cons; [done|by apply Hno].
        -- right. exists ((key, l) :: earlier), key', later.
           split; [done|]. split; [done|]. intros k.
           intros [->|?]%elem_of_cons; [done|by apply Hno].
      * intros [[-> Hno]|(earlier & key' & later & Hm & Hocc & Hno)].
        -- left. split; [done|]. intros k Hk. apply Hno.
           apply elem_of_cons. by right.
        -- destruct earlier as [|[k0 l0] earlier]; simpl in Hm.
           ++ by injection Hm as -> _ _.
           ++ injection Hm as <- <- ->. right.
              exists earlier, key', later. split; [done|]. split; [done|].
              intros k Hk. apply Hno. apply elem_of_cons. by right.
Qed.

(** X15: the layer that plan-generator.py infers for a backend or a frontend
    file path is the one of the first key of the mapping, in the order in
    which the mapping is written, that is a substring of the path, and it is
    "Other" exactly when no key of the mapping is a substring of the path. *)
Theorem inferred_layer_is_first_key (filepath layer : string) :
  (PlanGenerator._infer_layer filepath = layer
   ↔ first_key_layer PlanGenerator.backend_mapping filepath layer) ∧
  (PlanGenerator._infer_frontend_layer filepath = layer
   ↔ first_key_layer PlanGenerator.frontend_mapping filepath layer).
Proof.
  split; apply first_layer_spec.
  all: by apply (bool_decide_unpack _); vm_compute.
Qed.

(** * Lemmas on the structured plan *)

Lemma enumerate_fst {A} (l : list A) start :
  (PlanJson.enumerate l start).*1 = seqZ start (Z.of_nat (length l)).
Proof.
  revert start. induction l as [|x l IH]; intros start; [done|].
  cbn [PlanJson.enumerate length]. rewrite fmap_cons, IH.
  rewrite Nat2Z.inj_succ, (seqZ_cons start) by lia. simpl.
  f_equal. f_equal; lia.
Qed.

Lemma enumerate_snd {A} (l : list A) start :
  (PlanJson.enumerate l start).*2 = l.
Proof.
  revert start. induction l as [|x l IH]; intros start; [done|].
  cbn [PlanJson.enumerate]. by rewrite fmap_cons, IH.
Qed.

Lemma plan_tasks_ids date args :
  map PlanJson.id (PlanJson.plan_tasks (PlanJson.generate_plan_json date args))
  = seqZ 1 (Z.of_nat (length (PlanJson.tasks args))).
Proof.
  simpl. rewrite <- enumerate_fst, map_map. apply map_ext. by intros [i t].
Qed.

(** X16: in the structured plan of plan-generator.py the tasks carry the
    numbers 1, 2, ... and the given titles, in the given order; the first
    task has no precondition and every other task has exactly one, the number
    before its own, which is the number of a task of the plan: no
    precondition dangles and none points forward. *)
Theorem json_plan_is_a_chain (date : string) (args : PlanJson.Args) :
  let plan := PlanJson.generate_plan_json date args in
  map PlanJson.id (PlanJson.plan_tasks plan)
    = seqZ 1 (Z.of_nat (length (PlanJson.tasks args))) ∧
  map PlanJson.title (PlanJson.plan_tasks plan) = PlanJson.tasks args ∧
  ∀ t, t ∈ PlanJson.plan_tasks plan →
    (PlanJson.id t = 1%Z → PlanJson.preconditions t = []) ∧
    (PlanJson.id t ≠ 1%Z →
       PlanJson.preconditions t = [(PlanJson.id t - 1)%Z] ∧
       ∃ t', t' ∈ PlanJson.plan_tasks plan ∧
             PlanJson.id t' = (PlanJson.id t - 1)%Z).
Proof.
  intros plan. pose proof (plan_tasks_ids date args) as Hids.
  fold plan in Hids. split; [done|]. split.
  - simpl. rewrite <- (enumerate_snd (PlanJson.tasks args) 1) at 2.
    rewrite map_map. apply map_ext. by intros [i t].
  - intros t Ht.
    assert (PlanJson.id t ∈ seqZ 1 (Z.of_nat (length (PlanJson.tasks args)))) as Hid.
    { rewrite <- Hids. apply list_elem_of_fmap. by exists t. }
    apply elem_of_seqZ in Hid.
    assert (PlanJson.preconditions t
            = if decide (PlanJson.id t > 1)%Z then [(PlanJson.id t - 1)%Z]
              else []) as Hpre.
    { simpl in Ht. apply list_elem_of_fmap in Ht as ([i x] & -> & _). done. }
    rewrite Hpre. split.
    + intros ->. done.
    + intros Hne. rewrite decide_True by lia. split; [done|].
      assert ((PlanJson.id t - 1)%Z ∈ map PlanJson.id (PlanJson.plan_tasks plan))
        as (t' & Ht' & Hin)%list_elem_of_fmap.
      { rewrite Hids. apply elem_of_seqZ. lia. }
      by exists t'.
Qed.
